(** * A peer-to-peer file distribution network: tracker and peer

    Shallow embedding of [server.py] (the tracker) and [peer.py] (the peer)
    and the properties of the registry, of chunking, of peer selection and
    of the download path.

    Python [str] values are [string], [bytes] values are [list byte], a
    [dict] whose iteration order is observable is an association list with
    the insertion-order semantics of Python, a [dict] or [set] whose order
    is not observable is a [gmap] or [gset]. *)

From Stdlib Require Import ZArith NArith Lia List Ascii String DecimalString.
From Stdlib Require Strings.Byte DecimalFacts DecimalNat.
From stdpp Require Import base gmap strings list fin_maps fin_sets.

(** ** Python strings *)

Module PyStr.

(** [s[:n]] *)
Fixpoint take (n : nat) (s : string) : string :=
  match n, s with
  | S n', String c s' => String c (take n' s')
  | _, _ => EmptyString
  end.

(** [s[n:]] *)
Fixpoint drop (n : nat) (s : string) : string :=
  match n, s with
  | S n', String _ s' => drop n' s'
  | _, _ => s
  end.

Arguments take : simpl nomatch.
Arguments drop : simpl nomatch.

(** [s[:-1]] *)
Fixpoint drop_last (s : string) : string :=
  match s with
  | EmptyString => EmptyString
  | String c EmptyString => EmptyString
  | String c s' => String c (drop_last s')
  end.

(** The ASCII characters for which [str.isspace] holds. *)
Definition is_space (c : ascii) : bool :=
  let n := nat_of_ascii c in
  ((9 <=? n)%nat && (n <=? 13)%nat) || ((28 <=? n)%nat && (n <=? 32)%nat).

(** [s.split()]: the maximal runs of non-space characters, in order.
    [tok] is the run being read, if any. *)
Fixpoint split_go (tok : option string) (s : string) : list string :=
  match s with
  | EmptyString => match tok with Some t => [t] | None => [] end
  | String c s' =>
      if is_space c then
        match tok with
        | Some t => t :: split_go None s'
        | None => split_go None s'
        end
      else
        split_go (Some (match tok with
                        | Some t => t +:+ String c EmptyString
                        | None => String c EmptyString
                        end)) s'
  end.

Definition split (s : string) : list string := split_go None s.

(** [sep.join(l)] *)
Fixpoint join (sep : string) (l : list string) : string :=
  match l with
  | [] => EmptyString
  | [x] => x
  | x :: l' => x +:+ sep +:+ join sep l'
  end.

(** [str(n)] for a non-negative [int]. *)
Definition of_nat (n : nat) : string := NilEmpty.string_of_uint (Nat.to_uint n).

Lemma append_cons (x : ascii) (a b : string) :
  String x a +:+ b = String x (a +:+ b).
Proof. reflexivity. Qed.

Lemma append_assoc (a b c : string) : (a +:+ b) +:+ c = a +:+ (b +:+ c).
Proof.
  induction a as [|x a IH]; [done|]. by rewrite !append_cons, IH.
Qed.

Lemma append_nil_r (a : string) : a +:+ "" = a.
Proof. induction a as [|x a IH]; [done|]. by rewrite append_cons, IH. Qed.

(** A word: a non-empty string without a space character, which is what
    [split] yields and what a message lists. *)
Fixpoint no_space (w : string) : bool :=
  match w with
  | EmptyString => true
  | String c w' => negb (is_space c) && no_space w'
  end.

Definition is_word (w : string) : bool := negb (w =? "")%string && no_space w.

Lemma split_go_word w tok rest :
  no_space w = true → w ≠ "" →
  split_go tok (w +:+ rest) = split_go (Some (default "" tok +:+ w)) rest.
Proof.
  revert tok. induction w as [|c w IH]; intros tok Hns Hne; [done|].
  simpl in Hns. apply andb_true_iff in Hns as [Hc Hw].
  apply negb_true_iff in Hc. rewrite append_cons. cbn [split_go].
  rewrite Hc. destruct w as [|c' w'].
  - by destruct tok.
  - rewrite IH by done. f_equal. f_equal. destruct tok as [t|]; simpl.
    + by rewrite append_assoc.
    + done.
Qed.

Lemma split_join (ws : list string) :
  Forall (λ w, is_word w = true) ws → split (join " " ws) = ws.
Proof.
  unfold split. induction 1 as [|w ws Hw Hws IH]; [done|].
  apply andb_true_iff in Hw as [Hne%negb_true_iff%String.eqb_neq Hns].
  destruct ws as [|w2 ws].
  - simpl. rewrite <- (append_nil_r w) at 1. by rewrite split_go_word.
  - change (join " " (w :: w2 :: ws))
      with (w +:+ " " +:+ join " " (w2 :: ws)).
    rewrite split_go_word by done. simpl default.
    change (" " +:+ join " " (w2 :: ws))
      with (String " " (join " " (w2 :: ws))).
    cbn [split_go]. change (is_space " ") with true. cbn iota.
    by rewrite IH.
Qed.

End PyStr.

(** ** Python dictionaries in insertion order *)

Module PyDict.
Section Dict.
Context {K V : Type} `{EqDecision K}.

(** [d.get(k)] *)
Fixpoint get (d : list (K * V)) (k : K) : option V :=
  match d with
  | [] => None
  | (k', v) :: d' => if decide (k' = k) then Some v else get d' k
  end.

(** [d[k] = v]: an existing key keeps its place, a new key goes last. *)
Fixpoint set (d : list (K * V)) (k : K) (v : V) : list (K * V) :=
  match d with
  | [] => [(k, v)]
  | (k', v') :: d' =>
      if decide (k' = k) then (k', v) :: d' else (k', v') :: set d' k v
  end.

Definition keys (d : list (K * V)) : list K := d.*1.
Definition values (d : list (K * V)) : list V := d.*2.

Lemma get_set_eq d k v : get (set d k v) k = Some v.
Proof.
  induction d as [|[k' v'] d IH]; simpl.
  - by rewrite decide_True.
  - destruct (decide (k' = k)) as [->|Hne]; simpl.
    + by rewrite decide_True.
    + by rewrite decide_False.
Qed.

Lemma get_set_ne d k k' v : k ≠ k' → get (set d k v) k' = get d k'.
Proof.
  intros Hne. induction d as [|[k0 v0] d IH]; simpl.
  - by rewrite decide_False.
  - destruct (decide (k0 = k)) as [->|Hne0]; simpl.
    + by rewrite !decide_False.
    + by rewrite IH.
Qed.

Lemma get_Some_elem_of d k v : get d k = Some v → (k, v) ∈ d.
Proof.
  induction d as [|[k' v'] d IH]; simpl; [done|].
  rewrite elem_of_cons.
  destruct (decide (k' = k)) as [->|Hne].
  - intros [= ->]. by left.
  - intros H. right. by apply IH.
Qed.

Lemma elem_of_set d k v kv :
  kv ∈ set d k v → kv = (k, v) ∨ kv ∈ d.
Proof.
  induction d as [|[k0 v0] d IH]; simpl.
  - intros ->%list_elem_of_singleton. by left.
  - destruct (decide (k0 = k)) as [->|Hne]; rewrite !elem_of_cons.
    + intros [->|Hin]; auto.
    + intros [->|Hin]; [auto|].
      destruct (IH Hin) as [->|Hd]; auto.
Qed.

Lemma keys_set d k v :
  keys (set d k v) = if decide (k ∈ keys d) then keys d else keys d ++ [k].
Proof.
  unfold keys. induction d as [|[k' v'] d IH].
  - done.
  - cbn [set]. destruct (decide (k' = k)) as [->|Hne].
    + rewrite decide_True; [done|]. rewrite fmap_cons. apply elem_of_cons; auto.
    + rewrite !fmap_cons, IH. cbn [fst]. destruct (decide (k ∈ d.*1)).
      * rewrite decide_True; [done|]. apply elem_of_cons; auto.
      * rewrite decide_False; [done|].
        rewrite elem_of_cons. intros [?|?]; congruence.
Qed.

Lemma NoDup_keys_set d k v : NoDup (keys d) → NoDup (keys (set d k v)).
Proof.
  intros Hnd. rewrite keys_set. case_decide; [done|].
  apply NoDup_app. split_and!; [done| |apply NoDup_singleton].
  intros x Hx ->%list_elem_of_singleton. done.
Qed.

Lemma set_fresh d k v : k ∉ keys d → set d k v = d ++ [(k, v)].
Proof.
  unfold keys. induction d as [|[k' v'] d IH]; [done|].
  rewrite fmap_cons, not_elem_of_cons. cbn [fst set]. intros [Hne Hd].
  rewrite decide_False by congruence. by rewrite IH.
Qed.

Lemma set_app_fresh d1 d2 k v0 v :
  k ∉ keys d1 → set (d1 ++ (k, v0) :: d2) k v = d1 ++ (k, v) :: d2.
Proof.
  unfold keys. induction d1 as [|[k' v'] d1 IH].
  - intros _. cbn [app set]. by rewrite decide_True.
  - rewrite fmap_cons, not_elem_of_cons. cbn [fst]. intros [Hne Hd].
    rewrite <- !app_comm_cons. cbn [set].
    rewrite decide_False by congruence. by rewrite IH.
Qed.


(** The keys after the keys of [l] are assigned one after the other. *)
Definition add_key (ks : list K) (k : K) : list K :=
  if decide (k ∈ ks) then ks else ks ++ [k].

Lemma keys_foldl_set (v : V) d l :
  keys (foldl (λ d k, set d k v) d l) = foldl add_key (keys d) l.
Proof.
  revert d. induction l as [|k l IH]; intros d; [done|].
  cbn [foldl]. by rewrite IH, keys_set.
Qed.


Lemma elem_of_add_keys ks l x :
  x ∈ foldl add_key ks l ↔ x ∈ ks ∨ x ∈ l.
Proof.
  revert ks. induction l as [|k l IH]; intros ks; cbn [foldl].
  - rewrite elem_of_nil. tauto.
  - rewrite IH, elem_of_cons. unfold add_key. case_decide.
    + split; [tauto|]. intros [?|[->|?]]; auto.
    + rewrite elem_of_app, list_elem_of_singleton. tauto.
Qed.



Lemma foldl_set_fresh (v : V) d l :
  NoDup (keys d ++ l) →
  foldl (λ d k, set d k v) d l = d ++ ((λ k, (k, v)) <$> l).
Proof.
  revert d. induction l as [|k l IH]; intros d Hnd.
  - by rewrite app_nil_r.
  - cbn [foldl]. assert (k ∉ keys d) as Hk.
    { apply NoDup_app in Hnd as (_ & Hdis & _). intros Hin.
      apply (Hdis k Hin). apply elem_of_cons. by left. }
    rewrite set_fresh by done. rewrite IH.
    + by rewrite <- app_assoc.
    + unfold keys in *. rewrite fmap_app. cbn [fmap list_fmap fst].
      by rewrite <- app_assoc.
Qed.

End Dict.
End PyDict.

(** ** The tracker ([server.py]) *)

Module Tracker.

(** Modelled from the spec: [config.MSG_TYPE_SIZE], the constant width of
    a message tag with its separator.  The configuration module is not
    part of the sources; the width is the one of the tags the sources
    compare against, as in [data[:MSG_TYPE_SIZE] == b"CSS_ERROR "]. *)
Definition MSG_TYPE_SIZE : nat := 10.

(** The two process-wide maps [files] and [chunks]. *)
Record registry := Registry {
  files : list (string * list string);
  chunks : gmap string (gset string)
}.

Definition empty : registry := Registry [] ∅.

(** *** GETAF: [get_files] *)

(** [[set(chunks.get(chunk, [])) for chunk in chunk_hashes]] *)
Definition peer_sets (cks : gmap string (gset string))
    (chunk_hashes : list string) : list (gset string) :=
  (λ chunk, default ∅ (cks !! chunk)) <$> chunk_hashes.

(** The intersection of all of [peer_sets], the empty set when there is
    none ([set.intersection] unpacked over the list). *)
Definition common_peers (sets : list (gset string)) : gset string :=
  match sets with
  | [] => ∅
  | s :: rest => foldl (∩) s rest
  end.

(** One iteration of the loop of [get_files]. *)
Definition get_files_step (cks : gmap string (gset string)) (msg : string)
    (item : string * list string) : string :=
  let '(file_name, chunk_hashes) := item in
  let msg := msg +:+ file_name +:+ " " in
  match chunk_hashes with
  | [] => msg +:+ "[0] "
  | _ =>
      msg +:+ "[" +:+
        PyStr.of_nat (size (common_peers (peer_sets cks chunk_hashes))) +:+ "] "
  end.

Definition get_files (st : registry) : string :=
  PyStr.drop_last (foldl (get_files_step (chunks st)) "" (files st)).

(** *** REGFI *)

Definition regfi (st : registry) (file_name : string)
    (file_chunks : list string) : registry :=
  {| files := PyDict.set (files st) file_name file_chunks;
     chunks := foldl (λ cks chunk_hash, <[chunk_hash := ∅]> cks)
                 (chunks st) file_chunks |}.

(** *** REGCK *)

Definition regck_step (peer : string)
    (acc : gmap string (gset string) * nat) (chunk : string)
    : gmap string (gset string) * nat :=
  match acc.1 !! chunk with
  | Some s => (<[chunk := s ∪ {[peer]}]> acc.1, S acc.2)
  | None => acc
  end.

Definition regck (cks : gmap string (gset string)) (peer : string)
    (chunk_hashes : list string) : gmap string (gset string) * nat :=
  foldl (regck_step peer) (cks, 0) chunk_hashes.

(** *** URGPR *)

Definition urgpr (cks : gmap string (gset string)) (peers : list string)
    : gmap string (gset string) :=
  foldl (λ cks peer, (λ chunk_peers, chunk_peers ∖ {[peer]}) <$> cks)
    cks peers.

(** *** URGCK *)

Definition urgck_step (peer : string)
    (acc : gmap string (gset string) * nat) (chunk : string)
    : gmap string (gset string) * nat :=
  match acc.1 !! chunk with
  | Some s =>
      if decide (peer ∈ s) then (<[chunk := s ∖ {[peer]}]> acc.1, S acc.2)
      else acc
  | None => acc
  end.

Definition urgck (cks : gmap string (gset string)) (peer : string)
    (chunk_hashes : list string) : gmap string (gset string) * nat :=
  foldl (urgck_step peer) (cks, 0) chunk_hashes.

(** *** One turn of the service loop

    [data] is the decoded message.  The result is [None] when the loop
    is left without a reply: on an empty message ([if not data: break])
    and on an exception ([data[0]] of an empty token list), which the
    loop catches and answers by [break]. *)
Definition handle_request (st : registry) (data : string)
    : option (registry * string) :=
  if (data =? "")%string then None else
  let req_type := PyStr.take (MSG_TYPE_SIZE - 1) data in
  let payload := PyStr.drop MSG_TYPE_SIZE data in
  if (req_type =? "CSQ_GETAF")%string then
    Some (st, "CSS_GETAF " +:+ get_files st)
  else if (req_type =? "CSQ_GETFI")%string then
    Some (st, "CSS_GETFI " +:+
              PyStr.join " " (default [] (PyDict.get (files st) payload)))
  else if (req_type =? "CSQ_GETCK")%string then
    Some (st, "CSS_GETCK " +:+
              PyStr.join " " (elements (default ∅ (chunks st !! payload))))
  else if (req_type =? "CSQ_REGFI")%string then
    match PyStr.split payload with
    | [] => None
    | file_name :: file_chunks =>
        Some (regfi st file_name file_chunks,
              "CSS_REGFI " +:+ PyStr.of_nat (length file_chunks))
    end
  else if (req_type =? "CSQ_REGCK")%string then
    match PyStr.split payload with
    | [] => None
    | peer :: chunk_hashes =>
        let r := regck (chunks st) peer chunk_hashes in
        Some ({| files := files st; chunks := r.1 |},
              "CSS_REGCK " +:+ PyStr.of_nat r.2)
    end
  else if (req_type =? "CSQ_URGPR")%string then
    Some ({| files := files st;
             chunks := urgpr (chunks st) (PyStr.split payload) |},
          "CSS_URGPR")
  else if (req_type =? "CSQ_URGCK")%string then
    match PyStr.split payload with
    | [] => None
    | peer :: chunk_hashes =>
        let r := urgck (chunks st) peer chunk_hashes in
        Some ({| files := files st; chunks := r.1 |},
              "CSS_URGCK " +:+ PyStr.of_nat r.2)
    end
  else
    Some (st, "CSS_ERROR Unknown request type '" +:+ req_type +:+ "'.").

(** The service loop over the messages received, one connection after
    the other: the registry when the loop is left or the messages are
    exhausted, and the replies sent. *)
Fixpoint serve (st : registry) (msgs : list string)
    : registry * list string :=
  match msgs with
  | [] => (st, [])
  | data :: msgs' =>
      match handle_request st data with
      | None => (st, [])
      | Some (st', reply) =>
          let r := serve st' msgs' in (r.1, reply :: r.2)
      end
  end.

Example serve_scenario :
  (serve empty ["CSQ_REGFI movie h1 h2 h3"; "CSQ_GETAF";
                "CSQ_REGCK 10.0.0.1:4000 h1 h2 h3"; "CSQ_GETAF";
                "CSQ_GETFI movie"; "CSQ_GETCK h2"; "CSQ_GETFI other";
                "CSQ_URGCK 10.0.0.1:4000 h1 zz"; "CSQ_GETAF"; "CSQ_NOPE!"]).2
  = ["CSS_REGFI 3"; "CSS_GETAF movie [0]"; "CSS_REGCK 3";
     "CSS_GETAF movie [1]"; "CSS_GETFI h1 h2 h3";
     "CSS_GETCK 10.0.0.1:4000"; "CSS_GETFI "; "CSS_URGCK 1";
     "CSS_GETAF movie [0]"; "CSS_ERROR Unknown request type 'CSQ_NOPE!'."].
Proof. vm_compute. reflexivity. Qed.

(** *** The effect of each mutation on the chunk map *)

Lemma regfi_chunks_lookup (cks : gmap string (gset string)) file_chunks h :
  foldl (λ cks chunk_hash, <[chunk_hash := ∅]> cks) cks file_chunks !! h
  = if decide (h ∈ file_chunks) then Some ∅ else cks !! h.
Proof.
  revert cks. induction file_chunks as [|c l IH]; intros cks; simpl.
  - done.
  - rewrite IH. destruct (decide (h ∈ l)) as [Hl|Hl].
    + rewrite decide_True; [done|]. apply elem_of_cons; auto.
    + destruct (decide (c = h)) as [->|Hne].
      * rewrite lookup_insert_eq, decide_True; [done|].
        apply elem_of_cons; auto.
      * rewrite lookup_insert_ne by done.
        rewrite decide_False; [done|].
        rewrite elem_of_cons. intros [->|?]; done.
Qed.

Lemma regck_step_dom peer acc chunk :
  dom (regck_step peer acc chunk).1 = dom acc.1.
Proof.
  unfold regck_step. destruct (acc.1 !! chunk) as [s|] eqn:E; simpl; [|done].
  rewrite dom_insert_L. apply elem_of_dom_2 in E. set_solver.
Qed.

Lemma regck_spec peer chunk_hashes (cks : gmap string (gset string)) n :
  let r := foldl (regck_step peer) (cks, n) chunk_hashes in
  dom r.1 = dom cks
  ∧ (∀ h, r.1 !! h = if decide (h ∈ chunk_hashes)
                     then (λ s, s ∪ {[peer]}) <$> cks !! h
                     else cks !! h)
  ∧ r.2 = n + length (filter (.∈ dom cks) chunk_hashes).
Proof.
  revert cks n. induction chunk_hashes as [|c l IH]; intros cks n; simpl.
  - split_and!; [done|done|lia].
  - pose proof (regck_step_dom peer (cks, n) c) as Hdom. simpl in Hdom.
    destruct (regck_step peer (cks, n) c) as [cks1 n1] eqn:Hstep.
    simpl in Hdom.
    destruct (IH cks1 n1) as (Hd & Hl & Hc). split_and!.
    + by rewrite Hd.
    + intros h. rewrite Hl. unfold regck_step in Hstep. simpl in Hstep.
      destruct (cks !! c) as [s|] eqn:E; injection Hstep as <- <-.
      * destruct (decide (h = c)) as [->|Hne].
        -- rewrite lookup_insert_eq, E, (decide_True (P := c ∈ c :: l))
             by (apply elem_of_cons; auto).
           destruct (decide (c ∈ l)); simpl; [|done].
           f_equal. set_solver.
        -- rewrite lookup_insert_ne by done.
           destruct (decide (h ∈ l)) as [Hin|Hin].
           ++ rewrite decide_True; [done|]. apply elem_of_cons; auto.
           ++ rewrite decide_False; [done|].
              rewrite elem_of_cons. intros [?|?]; done.
      * destruct (decide (h = c)) as [->|Hne].
        -- rewrite E. by repeat case_decide.
        -- destruct (decide (h ∈ l)) as [Hin|Hin].
           ++ rewrite decide_True; [done|]. apply elem_of_cons; auto.
           ++ rewrite decide_False; [done|].
              rewrite elem_of_cons. intros [?|?]; done.
    + rewrite Hc, Hdom. unfold regck_step in Hstep. simpl in Hstep.
      rewrite filter_cons.
      destruct (cks !! c) as [s|] eqn:E; injection Hstep as <- <-.
      * rewrite decide_True by (by apply elem_of_dom_2 in E). simpl. lia.
      * rewrite decide_False by (by apply not_elem_of_dom). simpl. lia.
Qed.

Lemma filter_length_lt {A} (P : A → Prop) `{∀ x, Decision (P x)}
    (l : list A) x :
  x ∈ l → ¬ P x → length (filter P l) < length l.
Proof.
  induction l as [|y l IH]; [by intros ?%elem_of_nil|].
  rewrite elem_of_cons, filter_cons. intros [->|Hin] HP.
  - rewrite decide_False by done. simpl.
    pose proof (length_filter P l). lia.
  - specialize (IH Hin HP). case_decide; simpl; lia.
Qed.

Lemma urgpr_lookup (cks : gmap string (gset string)) peers h :
  urgpr cks peers !! h = (λ s, s ∖ list_to_set peers) <$> cks !! h.
Proof.
  unfold urgpr. revert cks. induction peers as [|p l IH]; intros cks; simpl.
  - destruct (cks !! h) as [s|]; simpl; [|done]. f_equal. set_solver.
  - rewrite IH, lookup_fmap. destruct (cks !! h) as [s|]; simpl; [|done].
    f_equal. set_solver.
Qed.

Lemma urgpr_dom (cks : gmap string (gset string)) peers :
  dom (urgpr cks peers) = dom cks.
Proof.
  apply set_eq. intros h. rewrite !elem_of_dom, urgpr_lookup.
  by rewrite fmap_is_Some.
Qed.

Lemma urgck_step_dom peer acc chunk :
  dom (urgck_step peer acc chunk).1 = dom acc.1.
Proof.
  unfold urgck_step. destruct (acc.1 !! chunk) as [s|] eqn:E; simpl; [|done].
  case_decide; simpl; [|done].
  rewrite dom_insert_L. apply elem_of_dom_2 in E. set_solver.
Qed.

Lemma urgck_dom (cks : gmap string (gset string)) peer chunk_hashes :
  dom (urgck cks peer chunk_hashes).1 = dom cks.
Proof.
  unfold urgck. generalize 0. revert cks.
  induction chunk_hashes as [|c l IH]; intros cks n; simpl; [done|].
  pose proof (urgck_step_dom peer (cks, n) c) as Hdom.
  destruct (urgck_step peer (cks, n) c) as [cks1 n1]. simpl in Hdom.
  by rewrite IH.
Qed.

Lemma urgck_lookup (cks : gmap string (gset string)) peer chunk_hashes h :
  (urgck cks peer chunk_hashes).1 !! h
  = if decide (h ∈ chunk_hashes) then (λ s, s ∖ {[peer]}) <$> cks !! h
    else cks !! h.
Proof.
  unfold urgck. generalize 0. revert cks.
  induction chunk_hashes as [|c l IH]; intros cks n; simpl; [done|].
  destruct (urgck_step peer (cks, n) c) as [cks1 n1] eqn:Hstep.
  rewrite IH. unfold urgck_step in Hstep. simpl in Hstep.
  assert (cks1 !! c = (λ s, s ∖ {[peer]}) <$> cks !! c
          ∧ ∀ h', h' ≠ c → cks1 !! h' = cks !! h') as [Hc Hother].
  { destruct (cks !! c) as [s|] eqn:E; [case_decide|];
      injection Hstep as <- <-; simpl.
    - rewrite lookup_insert_eq. split; [done|].
      intros h' ?. by rewrite lookup_insert_ne.
    - rewrite E. simpl. split; [|done]. f_equal. set_solver.
    - by rewrite E. }
  destruct (decide (h = c)) as [->|Hne].
  - rewrite Hc, (decide_True (P := c ∈ c :: l)) by (apply elem_of_cons; auto).
    destruct (decide (c ∈ l)); [|done].
    destruct (cks !! c) as [s|]; simpl; [|done]. f_equal. set_solver.
  - rewrite Hother by done. destruct (decide (h ∈ l)) as [Hin|Hin].
    + rewrite decide_True; [done|]. apply elem_of_cons; auto.
    + rewrite decide_False; [done|].
      rewrite elem_of_cons. intros [?|?]; done.
Qed.

(** *** Dispatch on the message tag *)

Lemma take_tag_nonempty data tag :
  PyStr.take 9 data = tag → tag ≠ "" → (data =? "")%string = false.
Proof. destruct data; simpl; [congruence|done]. Qed.

Lemma handle_getfi st data :
  PyStr.take 9 data = "CSQ_GETFI" →
  handle_request st data
  = Some (st, "CSS_GETFI " +:+
              PyStr.join " "
                (default [] (PyDict.get (files st) (PyStr.drop 10 data)))).
Proof.
  intros Htag. unfold handle_request.
  rewrite (take_tag_nonempty _ _ Htag) by done.
  change (MSG_TYPE_SIZE - 1) with 9. by rewrite Htag.
Qed.

Lemma handle_regfi st data :
  PyStr.take 9 data = "CSQ_REGFI" →
  handle_request st data
  = match PyStr.split (PyStr.drop 10 data) with
    | [] => None
    | file_name :: file_chunks =>
        Some (regfi st file_name file_chunks,
              "CSS_REGFI " +:+ PyStr.of_nat (length file_chunks))
    end.
Proof.
  intros Htag. unfold handle_request.
  rewrite (take_tag_nonempty _ _ Htag) by done.
  change (MSG_TYPE_SIZE - 1) with 9. by rewrite Htag.
Qed.

Lemma handle_regck st data :
  PyStr.take 9 data = "CSQ_REGCK" →
  handle_request st data
  = match PyStr.split (PyStr.drop 10 data) with
    | [] => None
    | peer :: chunk_hashes =>
        let r := regck (chunks st) peer chunk_hashes in
        Some ({| files := files st; chunks := r.1 |},
              "CSS_REGCK " +:+ PyStr.of_nat r.2)
    end.
Proof.
  intros Htag. unfold handle_request.
  rewrite (take_tag_nonempty _ _ Htag) by done.
  change (MSG_TYPE_SIZE - 1) with 9. by rewrite Htag.
Qed.

(** The message is a REGFI that names [file_name]. *)
Definition regfi_for (file_name data : string) : bool :=
  (PyStr.take 9 data =? "CSQ_REGFI")%string
  && match PyStr.split (PyStr.drop 10 data) with
     | n :: _ => (n =? file_name)%string
     | [] => false
     end.

(** Only a REGFI naming the file changes the sequence recorded for it. *)
Lemma handle_request_files st data st' reply file_name :
  handle_request st data = Some (st', reply) →
  regfi_for file_name data = false →
  PyDict.get (files st') file_name = PyDict.get (files st) file_name.
Proof.
  unfold handle_request, regfi_for. change (MSG_TYPE_SIZE - 1) with 9.
  change MSG_TYPE_SIZE with 10.
  destruct (data =? "")%string; [done|].
  repeat (match goal with
          | |- context [(PyStr.take 9 data =? ?t)%string] =>
              destruct (PyStr.take 9 data =? t)%string eqn:?
          end).
  all: try (destruct (PyStr.split (PyStr.drop 10 data)) as [|x l]; [done|]).
  all: intros [= <- <-]; simpl; try done.
  intros Hne%String.eqb_neq. by apply PyDict.get_set_ne.
Qed.

(** Every turn of the loop either leaves [files] and the keys of
    [chunks] as they are, or is a REGFI. *)
Lemma handle_request_cases st data st' reply :
  handle_request st data = Some (st', reply) →
  (files st' = files st ∧ dom (chunks st') = dom (chunks st)
   ∧ PyStr.take 9 data ≠ "CSQ_REGFI")
  ∨ (∃ file_name file_chunks,
       PyStr.take 9 data = "CSQ_REGFI"
       ∧ PyStr.split (PyStr.drop 10 data) = file_name :: file_chunks
       ∧ st' = regfi st file_name file_chunks).
Proof.
  unfold handle_request. change (MSG_TYPE_SIZE - 1) with 9.
  change MSG_TYPE_SIZE with 10.
  destruct (data =? "")%string; [done|].
  repeat (match goal with
          | |- context [(PyStr.take 9 data =? ?t)%string] =>
              destruct (String.eqb_spec (PyStr.take 9 data) t)
          end).
  all: try (destruct (PyStr.split (PyStr.drop 10 data)) as [|x l]; [done|]).
  all: intros [= <- <-]; simpl.
  all: try (left; split_and!; [done|done|congruence]).
  - right. by exists x, l.
  - left. split_and!; [done| |congruence].
    unfold regck. by destruct (regck_spec x l (chunks st) 0) as (-> & _).
  - left. split_and!; [done| |congruence]. apply urgpr_dom.
  - left. split_and!; [done| |congruence]. apply urgck_dom.
Qed.

Lemma regfi_dom st file_name file_chunks :
  dom (chunks (regfi st file_name file_chunks))
  = dom (chunks st) ∪ list_to_set file_chunks.
Proof.
  apply set_eq. intros h. simpl.
  rewrite elem_of_union, !elem_of_dom, regfi_chunks_lookup,
    elem_of_list_to_set.
  case_decide; [|tauto]. split; [auto|]. intros _. by eexists.
Qed.

(** *** The registry invariant *)

Definition registry_inv (st : registry) : Prop :=
  ∀ file_name chunk_hashes h,
    (file_name, chunk_hashes) ∈ files st →
    h ∈ chunk_hashes → h ∈ dom (chunks st).

Lemma registry_inv_empty : registry_inv empty.
Proof. intros n hs h Hin. by apply elem_of_nil in Hin. Qed.

Lemma registry_inv_step st data st' reply :
  registry_inv st → handle_request st data = Some (st', reply) →
  registry_inv st'.
Proof.
  intros Hinv Hstep n hs h Hin Hh.
  destruct (handle_request_cases _ _ _ _ Hstep)
    as [(Hf & Hd & _)|(fn & fc & _ & _ & ->)].
  - rewrite Hd. rewrite Hf in Hin. by eapply Hinv.
  - rewrite regfi_dom. simpl in Hin.
    apply PyDict.elem_of_set in Hin as [[= -> ->]|Hin].
    + apply elem_of_union_r. by apply elem_of_list_to_set.
    + apply elem_of_union_l. by eapply Hinv.
Qed.

Lemma registry_inv_serve st msgs :
  registry_inv st → registry_inv (serve st msgs).1.
Proof.
  revert st. induction msgs as [|data msgs IH]; intros st Hinv; simpl.
  - done.
  - destruct (handle_request st data) as [[st' reply]|] eqn:Hstep; [|done].
    simpl. apply IH. by eapply registry_inv_step.
Qed.

(** C9. In every registry state reached from the empty maps by the
    service loop over any sequence of messages, every chunk hash of
    every registered sequence is a key of the chunk map; URGPR and URGCK
    keep the keys of the chunk map and only shrink the seeder sets, and
    REGFI makes every hash it registers a key. *)
Theorem registry_invariant (msgs : list string) :
  registry_inv (serve empty msgs).1
  ∧ (∀ cks peers,
       dom (urgpr cks peers) = dom cks
       ∧ ∀ h s', urgpr cks peers !! h = Some s' →
                 ∃ s, cks !! h = Some s ∧ s' ⊆ s)
  ∧ (∀ cks peer chunk_hashes,
       dom (urgck cks peer chunk_hashes).1 = dom cks
       ∧ ∀ h s', (urgck cks peer chunk_hashes).1 !! h = Some s' →
                 ∃ s, cks !! h = Some s ∧ s' ⊆ s)
  ∧ (∀ st file_name file_chunks h,
       h ∈ file_chunks → h ∈ dom (chunks (regfi st file_name file_chunks))).
Proof.
  split_and!.
  - apply registry_inv_serve, registry_inv_empty.
  - intros cks peers. split; [apply urgpr_dom|].
    intros h s'. rewrite urgpr_lookup.
    destruct (cks !! h) as [s|]; simpl; [|done].
    intros [= <-]. exists s. split; [done|set_solver].
  - intros cks peer hs. split; [apply urgck_dom|].
    intros h s'. rewrite urgck_lookup.
    destruct (cks !! h) as [s|]; simpl; case_decide; simpl; try done.
    + intros [= <-]. exists s. split; [done|set_solver].
    + intros [= <-]. by exists s.
  - intros st n hs h Hh. rewrite regfi_dom.
    apply elem_of_union_r. by apply elem_of_list_to_set.
Qed.

(** *** REGFI *)

(** C3, as amended.  A REGFI that names a file replaces the sequence
    recorded for that name and leaves the other names alone; every hash
    of the new sequence is mapped to the empty seeder set, whether it is
    new to the registry or was present already; the seeder sets of the
    hashes outside the new sequence are left as they are. *)
Theorem regfi_effect st data st' reply :
  PyStr.take 9 data = "CSQ_REGFI" →
  handle_request st data = Some (st', reply) →
  ∃ file_name file_chunks,
    PyStr.split (PyStr.drop 10 data) = file_name :: file_chunks
    ∧ PyDict.get (files st') file_name = Some file_chunks
    ∧ (∀ n, n ≠ file_name →
            PyDict.get (files st') n = PyDict.get (files st) n)
    ∧ (∀ h, h ∈ file_chunks → chunks st' !! h = Some ∅)
    ∧ (∀ h, h ∉ file_chunks → chunks st' !! h = chunks st !! h)
    ∧ reply = "CSS_REGFI " +:+ PyStr.of_nat (length file_chunks).
Proof.
  intros Htag. rewrite (handle_regfi _ _ Htag).
  destruct (PyStr.split (PyStr.drop 10 data)) as [|fn fc]; [done|].
  intros [= <- <-]. exists fn, fc. simpl. split_and!; try done.
  - apply PyDict.get_set_eq.
  - intros n Hn. by apply PyDict.get_set_ne.
  - intros h Hh. by rewrite regfi_chunks_lookup, decide_True.
  - intros h Hh. by rewrite regfi_chunks_lookup, decide_False.
Qed.

Lemma regfi_effect_witness :
  ∃ file_name file_chunks,
    PyStr.split (PyStr.drop 10 "CSQ_REGFI notes h1 h2")
    = file_name :: file_chunks
    ∧ PyDict.get (files (regfi empty "notes" ["h1"; "h2"])) file_name
      = Some file_chunks
    ∧ (∀ n, n ≠ file_name →
            PyDict.get (files (regfi empty "notes" ["h1"; "h2"])) n
            = PyDict.get (files empty) n)
    ∧ (∀ h, h ∈ file_chunks →
            chunks (regfi empty "notes" ["h1"; "h2"]) !! h = Some ∅)
    ∧ (∀ h, h ∉ file_chunks →
            chunks (regfi empty "notes" ["h1"; "h2"]) !! h
            = chunks empty !! h)
    ∧ "CSS_REGFI 2" = "CSS_REGFI " +:+ PyStr.of_nat (length file_chunks).
Proof.
  apply (regfi_effect empty "CSQ_REGFI notes h1 h2"
           (regfi empty "notes" ["h1"; "h2"]) "CSS_REGFI 2");
    reflexivity.
Defined.

(** C3 as it is stated fails: a hash that is present in the registry
    with a seeder loses that seeder when a REGFI lists it again. *)
Lemma regfi_resets_present_seeders :
  let st := (serve empty ["CSQ_REGFI a h1"; "CSQ_REGCK p h1"]).1 in
  let st' := (serve st ["CSQ_REGFI b h1"]).1 in
  chunks st !! "h1" = Some {["p"]}
  ∧ chunks st' !! "h1" = Some ∅
  ∧ chunks st' !! "h1" ≠ chunks st !! "h1".
Proof.
  assert (H1 : chunks (serve empty ["CSQ_REGFI a h1"; "CSQ_REGCK p h1"]).1
               !! "h1" = Some {["p"]}).
  { vm_compute. reflexivity. }
  assert (H2 : chunks (serve (serve empty ["CSQ_REGFI a h1";
                                           "CSQ_REGCK p h1"]).1
                         ["CSQ_REGFI b h1"]).1 !! "h1" = Some ∅).
  { vm_compute. reflexivity. }
  cbv zeta. split_and!; [done|done|].
  rewrite H1, H2. intros [= H]; set_solver.
Qed.

(** *** REGCK *)

(** One of the messages is a REGFI that lists [h] among its hashes. *)
Definition introduced_by_regfi (msgs : list string) (h : string) : Prop :=
  ∃ data, data ∈ msgs ∧ PyStr.take 9 data = "CSQ_REGFI"
          ∧ h ∈ tail (PyStr.split (PyStr.drop 10 data)).

Lemma serve_chunk_keys st msgs h :
  h ∈ dom (chunks (serve st msgs).1) →
  h ∈ dom (chunks st) ∨ introduced_by_regfi msgs h.
Proof.
  revert st. induction msgs as [|data msgs IH]; intros st; simpl; [auto|].
  destruct (handle_request st data) as [[st' reply]|] eqn:Hstep; [|auto].
  simpl. intros [Hin|(d & Hd & Htag & Hh)]%IH.
  - destruct (handle_request_cases _ _ _ _ Hstep)
      as [(_ & Hdom & _)|(fn & fc & Htag & Hsplit & ->)].
    + left. by rewrite <- Hdom.
    + rewrite regfi_dom, elem_of_union, elem_of_list_to_set in Hin.
      destruct Hin as [Hin|Hin]; [by left|]. right.
      exists data. split_and!; [apply elem_of_cons; auto|done|].
      by rewrite Hsplit.
  - right. exists d. split_and!; [apply elem_of_cons; auto|done|done].
Qed.

(** C5. A REGCK received in any state the loop reaches from the empty
    maps creates no chunk entry: the keys of the chunk map and the file
    map are as before, the peer joins the seeder set of every listed
    hash that is a key, a seeder set changes only for a listed hash that a
    prior REGFI introduced, the count replied is the number of listed
    hashes that are keys, and it is less than the number of listed
    hashes as soon as one of them is unknown. *)
Theorem regck_effect (msgs : list string) data st' reply :
  let st := (serve empty msgs).1 in
  PyStr.take 9 data = "CSQ_REGCK" →
  handle_request st data = Some (st', reply) →
  ∃ peer chunk_hashes,
    PyStr.split (PyStr.drop 10 data) = peer :: chunk_hashes
    ∧ files st' = files st
    ∧ dom (chunks st') = dom (chunks st)
    ∧ (∀ h s, h ∈ chunk_hashes → chunks st !! h = Some s →
              chunks st' !! h = Some (s ∪ {[peer]}))
    ∧ (∀ h, chunks st' !! h ≠ chunks st !! h →
            h ∈ chunk_hashes ∧ introduced_by_regfi msgs h)
    ∧ reply = "CSS_REGCK " +:+
              PyStr.of_nat
                (length (filter (.∈ dom (chunks st)) chunk_hashes))
    ∧ ((∃ h, h ∈ chunk_hashes ∧ h ∉ dom (chunks st)) →
       length (filter (.∈ dom (chunks st)) chunk_hashes)
       < length chunk_hashes).
Proof.
  intros st Htag. rewrite (handle_regck _ _ Htag).
  destruct (PyStr.split (PyStr.drop 10 data)) as [|peer hs]; [done|].
  cbv zeta. intros [= <- <-]. exists peer, hs. simpl.
  destruct (regck_spec peer hs (chunks st) 0) as (Hdom & Hlook & Hcount).
  fold (regck (chunks st) peer hs) in Hdom, Hlook, Hcount.
  split_and!; try done.
  - intros h s Hh Hs. by rewrite Hlook, decide_True, Hs.
  - intros h Hne. rewrite Hlook in Hne.
    destruct (decide (h ∈ hs)) as [Hh|Hh]; [|done]. split; [done|].
    destruct (chunks st !! h) as [s|] eqn:Hs; [|done].
    apply elem_of_dom_2 in Hs.
    destruct (serve_chunk_keys empty msgs h Hs) as [Hin|Hin]; [|done].
    simpl in Hin. by rewrite dom_empty_L in Hin.
  - by rewrite Hcount.
  - intros (h & Hh & Hnot). by eapply filter_length_lt.
Qed.

Lemma regck_effect_witness :
  let st := (serve empty ["CSQ_REGFI a h1"]).1 in
  let st' := {| files := files st;
                chunks := (regck (chunks st) "p" ["h1"; "zz"]).1 |} in
  ∃ peer chunk_hashes,
    PyStr.split (PyStr.drop 10 "CSQ_REGCK p h1 zz") = peer :: chunk_hashes
    ∧ files st' = files st
    ∧ dom (chunks st') = dom (chunks st)
    ∧ (∀ h s, h ∈ chunk_hashes → chunks st !! h = Some s →
              chunks st' !! h = Some (s ∪ {[peer]}))
    ∧ (∀ h, chunks st' !! h ≠ chunks st !! h →
            h ∈ chunk_hashes ∧ introduced_by_regfi ["CSQ_REGFI a h1"] h)
    ∧ "CSS_REGCK 1" = "CSS_REGCK " +:+
              PyStr.of_nat
                (length (filter (.∈ dom (chunks st)) chunk_hashes))
    ∧ ((∃ h, h ∈ chunk_hashes ∧ h ∉ dom (chunks st)) →
       length (filter (.∈ dom (chunks st)) chunk_hashes)
       < length chunk_hashes).
Proof.
  apply (regck_effect ["CSQ_REGFI a h1"] "CSQ_REGCK p h1 zz"
           {| files := files (serve empty ["CSQ_REGFI a h1"]).1;
              chunks := (regck (chunks (serve empty ["CSQ_REGFI a h1"]).1)
                           "p" ["h1"; "zz"]).1 |}
           "CSS_REGCK 1");
    vm_compute; reflexivity.
Defined.

(** *** GETAF *)

(** The number [get_files] prints for a file: the number of peers
    present in the seeder set of every hash of its sequence. *)
Definition seed_count (cks : gmap string (gset string))
    (chunk_hashes : list string) : nat :=
  match chunk_hashes with
  | [] => 0
  | _ => size (common_peers (peer_sets cks chunk_hashes))
  end.

(** The pairs a GETAF reply lists, in the order of [files]. *)
Definition listing (st : registry) : list (string * nat) :=
  (λ item, (item.1, seed_count (chunks st) item.2)) <$> files st.

Fixpoint render (l : list (string * nat)) : string :=
  match l with
  | [] => ""
  | (file_name, n) :: l' =>
      file_name +:+ " " +:+ "[" +:+ PyStr.of_nat n +:+ "] " +:+ render l'
  end.

Lemma get_files_fold cks msg l :
  foldl (get_files_step cks) msg l
  = msg +:+ render ((λ item, (item.1, seed_count cks item.2)) <$> l).
Proof.
  revert msg. induction l as [|[n hs] l IH]; intros msg.
  - simpl. by rewrite PyStr.append_nil_r.
  - cbn [foldl fmap list_fmap render fst snd]. rewrite IH.
    unfold get_files_step, seed_count. destruct hs as [|h hs].
    + by rewrite !PyStr.append_assoc.
    + by rewrite !PyStr.append_assoc.
Qed.

Lemma get_files_render st :
  get_files st = PyStr.drop_last (render (listing st)).
Proof. unfold get_files. by rewrite get_files_fold. Qed.

Lemma get_listing st file_name :
  PyDict.get (listing st) file_name
  = seed_count (chunks st) <$> PyDict.get (files st) file_name.
Proof.
  unfold listing. induction (files st) as [|[n hs] l IH]; [done|].
  simpl. by case_decide.
Qed.

Lemma elem_of_foldl_intersection (s : gset string) rest p :
  p ∈ foldl (∩) s rest ↔ p ∈ s ∧ ∀ s', s' ∈ rest → p ∈ s'.
Proof.
  revert s. induction rest as [|s1 rest IH]; intros s; simpl.
  - split; [|tauto]. intros ?. split; [done|]. by intros ? ?%elem_of_nil.
  - rewrite IH, elem_of_intersection. split.
    + intros [[? ?] Hrest]. split; [done|].
      intros s' [->|?]%elem_of_cons; auto.
    + intros [? Hrest]. split_and!; [done| |].
      * apply Hrest, elem_of_cons; auto.
      * intros s' ?. apply Hrest, elem_of_cons; auto.
Qed.

(** A peer is counted for a file when it seeds every chunk of it. *)
Lemma elem_of_common_peers cks chunk_hashes p :
  chunk_hashes ≠ [] →
  p ∈ common_peers (peer_sets cks chunk_hashes)
  ↔ ∀ h, h ∈ chunk_hashes → ∃ s, cks !! h = Some s ∧ p ∈ s.
Proof.
  destruct chunk_hashes as [|h0 hs]; [done|]. intros _.
  cbn [peer_sets fmap list_fmap common_peers].
  rewrite elem_of_foldl_intersection. split.
  - intros [H0 Hrest] h [->|Hin]%elem_of_cons.
    + destruct (cks !! h0) as [s|]; [by exists s|]. by simpl in H0.
    + specialize (Hrest (default ∅ (cks !! h))).
      destruct (cks !! h) as [s|] eqn:E.
      * exists s. split; [done|]. apply Hrest.
        apply list_elem_of_fmap. exists h. by rewrite E.
      * assert (p ∈ (∅ : gset string)) as Hp; [|set_solver].
        apply Hrest. apply list_elem_of_fmap. exists h. by rewrite E.
  - intros Hall. split.
    + destruct (Hall h0) as (s & -> & ?); [apply elem_of_cons; auto|done].
    + intros s' (h & -> & Hin)%list_elem_of_fmap.
      destruct (Hall h) as (s & -> & ?); [apply elem_of_cons; auto|done].
Qed.

Lemma seed_count_all_equal cks chunk_hashes s :
  chunk_hashes ≠ [] →
  (∀ h, h ∈ chunk_hashes → cks !! h = Some s) →
  seed_count cks chunk_hashes = size s.
Proof.
  intros Hne Hall. unfold seed_count.
  destruct chunk_hashes as [|h0 hs] eqn:E; [done|]. rewrite <- E in *.
  f_equal. apply set_eq. intros p. rewrite elem_of_common_peers by done.
  split.
  - intros Hp. destruct (Hp h0) as (s' & Hs' & ?).
    { rewrite E. apply elem_of_cons; auto. }
    rewrite Hall in Hs' by (rewrite E; apply elem_of_cons; auto).
    by injection Hs' as ->.
  - intros Hp h Hh. exists s. auto.
Qed.

(** C7. From any registry, after a REGFI of a file with three chunk
    hashes the GETAF reply lists the file with seed count 0.  After a
    REGCK of one peer it lists the file with seed count 1 when the REGCK
    lists all three hashes of the file, and with seed count 0 when it
    leaves one of them out: the count is of the peers that seed every
    chunk.  A REGCK of exactly the three hashes is answered with the
    count 3. *)
Theorem getaf_seed_count st file_name h1 h2 h3 peer listed :
  forallb PyStr.is_word ([file_name; h1; h2; h3; peer] ++ listed) = true →
  ∃ st1 st2 n,
    serve st ["CSQ_REGFI " +:+ PyStr.join " " [file_name; h1; h2; h3];
              "CSQ_GETAF";
              "CSQ_REGCK " +:+ PyStr.join " " (peer :: listed);
              "CSQ_GETAF"]
    = (st2, ["CSS_REGFI 3";
             "CSS_GETAF " +:+ PyStr.drop_last (render (listing st1));
             "CSS_REGCK " +:+ PyStr.of_nat n;
             "CSS_GETAF " +:+ PyStr.drop_last (render (listing st2))])
    ∧ PyDict.get (listing st1) file_name = Some 0
    ∧ PyDict.get (listing st2) file_name
      = Some (if forallb (λ h, bool_decide (h ∈ listed)) [h1; h2; h3]
              then 1 else 0)
    ∧ (listed = [h1; h2; h3] → n = 3).
Proof.
  intros Hw. cbn [app forallb] in Hw.
  repeat (apply andb_true_iff in Hw as [? Hw]).
  assert (Forall (λ w, PyStr.is_word w = true) listed) as Hlisted.
  { apply Forall_forall. intros w Hin.
    by apply (proj1 (forallb_forall _ _) Hw), list_elem_of_In. }
  clear Hw.
  set (hs := [h1; h2; h3]).
  set (st1 := regfi st file_name hs).
  set (st2 := {| files := files st1;
                 chunks := (regck (chunks st1) peer listed).1 |}).
  assert (Hst1 : ∀ h, h ∈ hs → chunks st1 !! h = Some ∅).
  { intros h Hh. unfold st1, regfi. cbn [chunks].
    by rewrite regfi_chunks_lookup, decide_True. }
  destruct (regck_spec peer listed (chunks st1) 0) as (Hdom & Hlook & Hcount).
  fold (regck (chunks st1) peer listed) in Hdom, Hlook, Hcount.
  assert (Hst2 : ∀ h, h ∈ hs →
            chunks st2 !! h
            = Some (if decide (h ∈ listed) then {[peer]} else ∅)).
  { intros h Hh. unfold st2. cbn [chunks].
    rewrite Hlook, Hst1 by done. case_decide; [|done].
    simpl. f_equal. set_solver. }
  exists st1, st2, (regck (chunks st1) peer listed).2. split_and!.
  - cbn [serve].
    rewrite handle_regfi by reflexivity.
    change (PyStr.drop 10 ("CSQ_REGFI " +:+ ?x)) with x.
    rewrite PyStr.split_join by (repeat constructor; done).
    fold hs. fold st1. cbn [fst snd].
    change (handle_request st1 "CSQ_GETAF")
      with (Some (st1, "CSS_GETAF " +:+ get_files st1)).
    cbn [fst snd]. rewrite handle_regck by reflexivity.
    change (PyStr.drop 10 ("CSQ_REGCK " +:+ ?x)) with x.
    rewrite PyStr.split_join by (by constructor).
    cbv zeta. fold st2. cbn [fst snd].
    change (handle_request st2 "CSQ_GETAF")
      with (Some (st2, "CSS_GETAF " +:+ get_files st2)).
    cbn [fst snd]. by rewrite !get_files_render.
  - assert (PyDict.get (files st1) file_name = Some hs) as Hf
      by apply PyDict.get_set_eq.
    rewrite get_listing, Hf. change (Some (seed_count (chunks st1) hs) = Some 0).
    by rewrite (seed_count_all_equal _ _ ∅), ?size_empty.
  - assert (PyDict.get (files st2) file_name = Some hs) as Hf
      by apply PyDict.get_set_eq.
    rewrite get_listing, Hf. cbn [fmap option_fmap option_map]. f_equal.
    destruct (forallb (λ h, bool_decide (h ∈ listed)) hs) eqn:Hall.
    + (* the peer seeds the three chunks *)
      rewrite (seed_count_all_equal _ _ {[peer]}), ?size_singleton;
        [done|done|].
      intros h Hh. rewrite Hst2 by done.
      rewrite decide_True; [done|].
      pose proof (proj1 (forallb_forall _ _) Hall h
                    (proj1 (list_elem_of_In _ _) Hh)) as Hb.
      cbn beta in Hb. by apply bool_decide_eq_true in Hb.
    + (* a chunk of the file has no seeder *)
      assert (∃ h0, h0 ∈ hs ∧ h0 ∉ listed) as (h0 & Hh0 & Hnot).
      { unfold hs in Hall. cbn [forallb] in Hall.
        rewrite andb_true_r in Hall.
        apply andb_false_iff in Hall as [Hb|Hall];
          [|apply andb_false_iff in Hall as [Hb|Hb]];
          apply bool_decide_eq_false in Hb;
          eexists; (split; [|exact Hb]); unfold hs; set_solver. }
      change (size (common_peers (peer_sets (chunks st2) hs)) = 0).
      apply size_empty_iff. apply set_equiv. intros p.
      rewrite elem_of_common_peers by done. split; [|set_solver].
      intros Hp. destruct (Hp h0 Hh0) as (s' & Hs' & Hin).
      rewrite Hst2, decide_False in Hs' by done.
      injection Hs' as <-. done.
  - intros ->. rewrite Hcount. fold hs.
    unfold hs at 1. rewrite !filter_cons, filter_nil.
    rewrite !decide_True; [done|..];
      apply elem_of_dom; rewrite Hst1; [done| |done| |done|];
      unfold hs; set_solver.
Qed.

Lemma getaf_seed_count_witness :
  ∃ st1 st2 n,
    serve empty ["CSQ_REGFI movie h1 h2 h3"; "CSQ_GETAF";
                 "CSQ_REGCK 10.0.0.1:4000 h1 h3"; "CSQ_GETAF"]
    = (st2, ["CSS_REGFI 3";
             "CSS_GETAF " +:+ PyStr.drop_last (render (listing st1));
             "CSS_REGCK " +:+ PyStr.of_nat n;
             "CSS_GETAF " +:+ PyStr.drop_last (render (listing st2))])
    ∧ PyDict.get (listing st1) "movie" = Some 0
    ∧ PyDict.get (listing st2) "movie"
      = Some (if forallb (λ h, bool_decide (h ∈ ["h1"; "h3"]))
                   ["h1"; "h2"; "h3"]
              then 1 else 0)
    ∧ (["h1"; "h3"] = ["h1"; "h2"; "h3"] → n = 3).
Proof.
  apply (getaf_seed_count empty "movie" "h1" "h2" "h3" "10.0.0.1:4000"
           ["h1"; "h3"]).
  reflexivity.
Defined.

(** The count goes from 0 to 1 with the last of the three chunks. *)
Example getaf_counts_full_seeders :
  (serve empty ["CSQ_REGFI movie h1 h2 h3"; "CSQ_REGCK 10.0.0.1:4000 h1";
                "CSQ_GETAF"; "CSQ_REGCK 10.0.0.1:4000 h2 h3";
                "CSQ_GETAF"]).2
  = ["CSS_REGFI 3"; "CSS_REGCK 1"; "CSS_GETAF movie [0]"; "CSS_REGCK 2";
     "CSS_GETAF movie [1]"].
Proof. vm_compute. reflexivity. Qed.

(** *** GETFI *)

Lemma serve_files st msgs file_name :
  forallb (λ data, negb (regfi_for file_name data)) msgs = true →
  PyDict.get (files (serve st msgs).1) file_name
  = PyDict.get (files st) file_name.
Proof.
  revert st. induction msgs as [|data msgs IH]; intros st; [done|].
  simpl. intros [Hd%negb_true_iff Hrest]%andb_true_iff.
  destruct (handle_request st data) as [[st' reply]|] eqn:Hstep; [|done].
  simpl. rewrite IH by done. by eapply handle_request_files.
Qed.

(** C8. GETFI leaves the registry as it is.  Once a REGFI has recorded
    a sequence for a name, GETFI for that name replies that sequence, in
    order, after any messages none of which is a REGFI for the name; a
    later REGFI for the name makes GETFI reply its sequence instead; for
    a name that is not registered the reply lists nothing. *)
Theorem getfi_pure st reg reg' file_name chunk_hashes chunk_hashes' msgs :
  PyStr.take 9 reg = "CSQ_REGFI" →
  PyStr.split (PyStr.drop 10 reg) = file_name :: chunk_hashes →
  PyStr.take 9 reg' = "CSQ_REGFI" →
  PyStr.split (PyStr.drop 10 reg') = file_name :: chunk_hashes' →
  forallb (λ data, negb (regfi_for file_name data)) msgs = true →
  let ask := "CSQ_GETFI " +:+ file_name in
  ∃ st1 st2 st3,
    (serve st [reg]).1 = st1 ∧ (serve st1 msgs).1 = st2
    ∧ (serve st2 [reg']).1 = st3
    ∧ handle_request st1 ask
      = Some (st1, "CSS_GETFI " +:+ PyStr.join " " chunk_hashes)
    ∧ handle_request st2 ask
      = Some (st2, "CSS_GETFI " +:+ PyStr.join " " chunk_hashes)
    ∧ handle_request st3 ask
      = Some (st3, "CSS_GETFI " +:+ PyStr.join " " chunk_hashes')
    ∧ (∀ st0 data, PyStr.take 9 data = "CSQ_GETFI" →
         ∃ reply, handle_request st0 data = Some (st0, reply))
    ∧ (∀ st0 n, PyDict.get (files st0) n = None →
         handle_request st0 ("CSQ_GETFI " +:+ n) = Some (st0, "CSS_GETFI ")).
Proof.
  intros Htag Hsplit Htag' Hsplit' Hmsgs ask.
  assert (Hask : ∀ st0 hs, PyDict.get (files st0) file_name = Some hs →
            handle_request st0 ask
            = Some (st0, "CSS_GETFI " +:+ PyStr.join " " hs)).
  { intros st0 hs Hget. unfold ask. rewrite handle_getfi by reflexivity.
    change (PyStr.drop 10 ("CSQ_GETFI " +:+ ?x)) with x. by rewrite Hget. }
  eexists _, _, _. split_and!; try reflexivity.
  - apply Hask. cbn [serve]. rewrite (handle_regfi _ _ Htag), Hsplit.
    simpl. apply PyDict.get_set_eq.
  - apply Hask. rewrite serve_files by done.
    cbn [serve]. rewrite (handle_regfi _ _ Htag), Hsplit.
    simpl. apply PyDict.get_set_eq.
  - apply Hask. cbn [serve]. rewrite (handle_regfi _ _ Htag'), Hsplit'.
    simpl. apply PyDict.get_set_eq.
  - intros st0 data Hd. rewrite (handle_getfi _ _ Hd). by eexists.
  - intros st0 n Hn. rewrite handle_getfi by reflexivity.
    change (PyStr.drop 10 ("CSQ_GETFI " +:+ ?x)) with x. by rewrite Hn.
Qed.

Lemma getfi_pure_witness :
  ∃ st1 st2 st3,
    (serve empty ["CSQ_REGFI movie h1 h2 h3"]).1 = st1
    ∧ (serve st1 ["CSQ_REGCK p h1 h2"; "CSQ_GETAF"; "CSQ_REGFI song h2";
                  "CSQ_URGPR p"; "CSQ_GETFI movie"]).1 = st2
    ∧ (serve st2 ["CSQ_REGFI movie h9"]).1 = st3
    ∧ handle_request st1 "CSQ_GETFI movie" = Some (st1, "CSS_GETFI h1 h2 h3")
    ∧ handle_request st2 "CSQ_GETFI movie" = Some (st2, "CSS_GETFI h1 h2 h3")
    ∧ handle_request st3 "CSQ_GETFI movie" = Some (st3, "CSS_GETFI h9")
    ∧ (∀ st0 data, PyStr.take 9 data = "CSQ_GETFI" →
         ∃ reply, handle_request st0 data = Some (st0, reply))
    ∧ (∀ st0 n, PyDict.get (files st0) n = None →
         handle_request st0 ("CSQ_GETFI " +:+ n) = Some (st0, "CSS_GETFI ")).
Proof.
  apply (getfi_pure empty "CSQ_REGFI movie h1 h2 h3" "CSQ_REGFI movie h9"
           "movie" ["h1"; "h2"; "h3"] ["h9"]
           ["CSQ_REGCK p h1 h2"; "CSQ_GETAF"; "CSQ_REGFI song h2";
            "CSQ_URGPR p"; "CSQ_GETFI movie"]);
    reflexivity.
Defined.

(** *** URGPR and URGCK *)

Lemma handle_urgpr st data :
  PyStr.take 9 data = "CSQ_URGPR" →
  handle_request st data
  = Some ({| files := files st;
             chunks := urgpr (chunks st) (PyStr.split (PyStr.drop 10 data)) |},
          "CSS_URGPR").
Proof.
  intros Htag. unfold handle_request.
  rewrite (take_tag_nonempty _ _ Htag) by done.
  change (MSG_TYPE_SIZE - 1) with 9. by rewrite Htag.
Qed.

Lemma handle_urgck st data :
  PyStr.take 9 data = "CSQ_URGCK" →
  handle_request st data
  = match PyStr.split (PyStr.drop 10 data) with
    | [] => None
    | peer :: chunk_hashes =>
        let r := urgck (chunks st) peer chunk_hashes in
        Some ({| files := files st; chunks := r.1 |},
              "CSS_URGCK " +:+ PyStr.of_nat r.2)
    end.
Proof.
  intros Htag. unfold handle_request.
  rewrite (take_tag_nonempty _ _ Htag) by done.
  change (MSG_TYPE_SIZE - 1) with 9. by rewrite Htag.
Qed.

(** X1. URGPR always answers with the acknowledgement; afterwards no
    peer it lists is a seeder of any chunk, every other peer seeds what it
    seeded before, and the files and the keys of the chunk map are as
    before. *)
Theorem urgpr_effect st data :
  PyStr.take 9 data = "CSQ_URGPR" →
  let peers := PyStr.split (PyStr.drop 10 data) in
  ∃ st',
    handle_request st data = Some (st', "CSS_URGPR")
    ∧ files st' = files st
    ∧ dom (chunks st') = dom (chunks st)
    ∧ ∀ h s, chunks st !! h = Some s →
        ∃ s', chunks st' !! h = Some s'
              ∧ ∀ p, p ∈ s' ↔ p ∈ s ∧ p ∉ peers.
Proof.
  intros Htag peers. rewrite (handle_urgpr _ _ Htag). eexists.
  split_and!; [done|done|apply urgpr_dom|].
  intros h s Hs. cbn [chunks]. rewrite urgpr_lookup, Hs. cbn.
  eexists. split; [done|]. intros p.
  rewrite elem_of_difference, elem_of_list_to_set. done.
Qed.

Lemma urgpr_effect_witness :
  let st := (serve empty ["CSQ_REGFI a h1 h2"; "CSQ_REGCK p h1 h2";
                          "CSQ_REGCK q h2"]).1 in
  let peers := PyStr.split (PyStr.drop 10 "CSQ_URGPR p r") in
  ∃ st',
    handle_request st "CSQ_URGPR p r" = Some (st', "CSS_URGPR")
    ∧ files st' = files st
    ∧ dom (chunks st') = dom (chunks st)
    ∧ ∀ h s, chunks st !! h = Some s →
        ∃ s', chunks st' !! h = Some s'
              ∧ ∀ p, p ∈ s' ↔ p ∈ s ∧ p ∉ peers.
Proof.
  apply (urgpr_effect
           (serve empty ["CSQ_REGFI a h1 h2"; "CSQ_REGCK p h1 h2";
                         "CSQ_REGCK q h2"]).1 "CSQ_URGPR p r").
  reflexivity.
Defined.

(** The listed hashes in whose seeder set the peer is. *)
Definition seeded (cks : gmap string (gset string)) (peer : string)
    (chunk_hashes : list string) : gset string :=
  filter (λ h, peer ∈ default ∅ (cks !! h)) (list_to_set chunk_hashes).

Lemma urgck_count (cks : gmap string (gset string)) peer chunk_hashes n :
  (foldl (urgck_step peer) (cks, n) chunk_hashes).2
  = n + size (seeded cks peer chunk_hashes).
Proof.
  revert cks n. induction chunk_hashes as [|c l IH]; intros cks n.
  - cbn. assert (seeded cks peer [] = ∅) as ->.
    { apply set_eq. intros h. unfold seeded. rewrite elem_of_filter.
      set_solver. }
    rewrite size_empty. lia.
  - cbn [foldl]. unfold urgck_step at 2. cbn [fst snd].
    destruct (cks !! c) as [s|] eqn:Hc; [destruct (decide (peer ∈ s))|].
    + rewrite IH.
      assert (seeded cks peer (c :: l)
              = {[c]} ∪ seeded (<[c:=s ∖ {[peer]}]> cks) peer l) as ->.
      { apply set_eq. intros h. unfold seeded.
        rewrite elem_of_union, !elem_of_filter, !elem_of_list_to_set,
          elem_of_cons, elem_of_singleton.
        destruct (decide (h = c)) as [->|Hne].
        - rewrite lookup_insert_eq, Hc. cbn. set_solver.
        - rewrite lookup_insert_ne by done. tauto. }
      rewrite size_union, size_singleton; [lia|].
      apply disjoint_singleton_l. unfold seeded.
      rewrite elem_of_filter, lookup_insert_eq. cbn. set_solver.
    + rewrite IH. f_equal. f_equal. apply set_eq. intros h. unfold seeded.
      rewrite !elem_of_filter, !elem_of_list_to_set, elem_of_cons.
      split; [tauto|]. intros [Hp [->|?]]; [|done].
      rewrite Hc in Hp. done.
    + rewrite IH. f_equal. f_equal. apply set_eq. intros h. unfold seeded.
      rewrite !elem_of_filter, !elem_of_list_to_set, elem_of_cons.
      split; [tauto|]. intros [Hp [->|?]]; [|done].
      rewrite Hc in Hp. cbn in Hp. set_solver.
Qed.

(** X2. URGCK removes the peer from the seeder sets of the hashes it
    lists and from no other set, leaves the files alone, and replies the
    number of distinct listed hashes the peer was a seeder of: a hash
    listed twice counts once. *)
Theorem urgck_effect st data st' reply :
  PyStr.take 9 data = "CSQ_URGCK" →
  handle_request st data = Some (st', reply) →
  ∃ peer chunk_hashes,
    PyStr.split (PyStr.drop 10 data) = peer :: chunk_hashes
    ∧ files st' = files st
    ∧ (∀ h, h ∉ chunk_hashes → chunks st' !! h = chunks st !! h)
    ∧ (∀ h s, h ∈ chunk_hashes → chunks st !! h = Some s →
              chunks st' !! h = Some (s ∖ {[peer]}))
    ∧ reply = "CSS_URGCK " +:+
              PyStr.of_nat (size (seeded (chunks st) peer chunk_hashes)).
Proof.
  intros Htag. rewrite (handle_urgck _ _ Htag).
  destruct (PyStr.split (PyStr.drop 10 data)) as [|peer hs]; [done|].
  cbv zeta. intros [= <- <-]. exists peer, hs. cbn [files chunks].
  split_and!; try done.
  - intros h Hh. by rewrite urgck_lookup, decide_False.
  - intros h s Hh Hs. by rewrite urgck_lookup, decide_True, Hs.
  - unfold urgck. by rewrite urgck_count.
Qed.

Lemma urgck_effect_witness :
  let st := (serve empty ["CSQ_REGFI a h1 h2"; "CSQ_REGCK p h1 h2"]).1 in
  let st' := {| files := files st;
                chunks := (urgck (chunks st) "p" ["h1"; "h1"; "zz"]).1 |} in
  ∃ peer chunk_hashes,
    PyStr.split (PyStr.drop 10 "CSQ_URGCK p h1 h1 zz") = peer :: chunk_hashes
    ∧ files st' = files st
    ∧ (∀ h, h ∉ chunk_hashes → chunks st' !! h = chunks st !! h)
    ∧ (∀ h s, h ∈ chunk_hashes → chunks st !! h = Some s →
              chunks st' !! h = Some (s ∖ {[peer]}))
    ∧ "CSS_URGCK 1" = "CSS_URGCK " +:+
              PyStr.of_nat (size (seeded (chunks st) peer chunk_hashes)).
Proof.
  apply (urgck_effect
           (serve empty ["CSQ_REGFI a h1 h2"; "CSQ_REGCK p h1 h2"]).1
           "CSQ_URGCK p h1 h1 zz"
           {| files := files (serve empty ["CSQ_REGFI a h1 h2";
                                           "CSQ_REGCK p h1 h2"]).1;
              chunks := (urgck (chunks (serve empty ["CSQ_REGFI a h1 h2";
                                                     "CSQ_REGCK p h1 h2"]).1)
                           "p" ["h1"; "h1"; "zz"]).1 |}
           "CSS_URGCK 1");
    vm_compute; reflexivity.
Defined.

(** *** Queries, unknown tags and malformed messages *)

(** The tag of the message is one of [tags]. *)
Definition tag_in (tags : list string) (data : string) : bool :=
  existsb (String.eqb (PyStr.take 9 data)) tags.

(** X3. Only REGFI, REGCK, URGPR and URGCK can change the registry:
    a message with any other tag is answered and leaves it as it was, and
    when the tag is none of the seven of the protocol the answer is the
    error message that quotes the tag. *)
Theorem queries_keep_registry st data st' reply :
  handle_request st data = Some (st', reply) →
  tag_in ["CSQ_REGFI"; "CSQ_REGCK"; "CSQ_URGPR"; "CSQ_URGCK"] data = false →
  st' = st
  ∧ (tag_in ["CSQ_GETAF"; "CSQ_GETFI"; "CSQ_GETCK"] data = false →
     reply = "CSS_ERROR Unknown request type '" +:+ PyStr.take 9 data
             +:+ "'.").
Proof.
  unfold handle_request, tag_in, existsb. change (MSG_TYPE_SIZE - 1) with 9.
  destruct (data =? "")%string; [done|].
  repeat (match goal with
          | |- context [(PyStr.take 9 data =? ?t)%string] =>
              destruct (PyStr.take 9 data =? t)%string
          end); try done.
  all: by intros [= <- <-] _.
Qed.

Lemma queries_keep_registry_witness :
  let st := (serve empty ["CSQ_REGFI a h1"]).1 in
  st = st
  ∧ (tag_in ["CSQ_GETAF"; "CSQ_GETFI"; "CSQ_GETCK"] "CSQ_HELLO world" = false →
     "CSS_ERROR Unknown request type 'CSQ_HELLO'."
     = "CSS_ERROR Unknown request type '"
       +:+ PyStr.take 9 "CSQ_HELLO world" +:+ "'.").
Proof.
  apply (queries_keep_registry (serve empty ["CSQ_REGFI a h1"]).1
           "CSQ_HELLO world" (serve empty ["CSQ_REGFI a h1"]).1
           "CSS_ERROR Unknown request type 'CSQ_HELLO'.");
    reflexivity.
Defined.

(** X4. A REGFI, REGCK or URGCK whose payload holds no token raises in
    the handler ([data[0]] of an empty list); the loop catches the
    exception and stops: the message is not answered, the registry is as
    it was, and no later message is served. *)
Theorem blank_mutation_stops_service st data msgs :
  tag_in ["CSQ_REGFI"; "CSQ_REGCK"; "CSQ_URGCK"] data = true →
  PyStr.split (PyStr.drop 10 data) = [] →
  handle_request st data = None ∧ serve st (data :: msgs) = (st, []).
Proof.
  intros Htag Hsplit.
  assert (handle_request st data = None) as Hnone.
  { unfold tag_in, existsb in Htag.
    destruct (String.eqb_spec (PyStr.take 9 data) "CSQ_REGFI") as [H1|_];
      [by rewrite (handle_regfi _ _ H1), Hsplit|].
    destruct (String.eqb_spec (PyStr.take 9 data) "CSQ_REGCK") as [H2|_];
      [by rewrite (handle_regck _ _ H2), Hsplit|].
    destruct (String.eqb_spec (PyStr.take 9 data) "CSQ_URGCK") as [H3|_];
      [by rewrite (handle_urgck _ _ H3), Hsplit|done]. }
  split; [done|]. cbn [serve]. by rewrite Hnone.
Qed.

Lemma blank_mutation_stops_service_witness :
  handle_request empty "CSQ_REGCK   " = None
  ∧ serve empty ["CSQ_REGCK   "; "CSQ_GETAF"] = (empty, []).
Proof.
  apply (blank_mutation_stops_service empty "CSQ_REGCK   " ["CSQ_GETAF"]);
    reflexivity.
Defined.

(** *** The seed count of GETAF *)

(** X5. The number GETAF lists for a registered file is 0 when its
    sequence is empty; otherwise it is the number of peers that are in the
    seeder set of every hash of the sequence.  It is at most the number of
    seeders of any one of its chunks, so it is 0 as soon as one hash has
    no seeder or no entry in the chunk map. *)
Theorem seed_count_meaning st file_name chunk_hashes :
  PyDict.get (files st) file_name = Some chunk_hashes →
  ∃ n,
    PyDict.get (listing st) file_name = Some n
    ∧ (chunk_hashes = [] → n = 0)
    ∧ (chunk_hashes ≠ [] →
       ∃ full : gset string,
         n = size full
         ∧ ∀ p, p ∈ full
                ↔ ∀ h, h ∈ chunk_hashes →
                       ∃ s, chunks st !! h = Some s ∧ p ∈ s)
    ∧ (∀ h, h ∈ chunk_hashes → n ≤ size (default ∅ (chunks st !! h))).
Proof.
  intros Hget. exists (seed_count (chunks st) chunk_hashes).
  rewrite get_listing, Hget. split_and!; [done|by intros ->|..].
  - intros Hne. exists (common_peers (peer_sets (chunks st) chunk_hashes)).
    split; [by destruct chunk_hashes|].
    intros p. by apply elem_of_common_peers.
  - intros h Hh. assert (chunk_hashes ≠ []) as Hne
      by (intros ->; by apply elem_of_nil in Hh).
    assert (seed_count (chunks st) chunk_hashes
            = size (common_peers (peer_sets (chunks st) chunk_hashes))) as ->
      by (by destruct chunk_hashes).
    apply subseteq_size. intros p Hp.
    pose proof (proj1 (elem_of_common_peers _ _ p Hne) Hp) as Hall.
    destruct (Hall h Hh) as (s & -> & ?). done.
Qed.

Lemma seed_count_meaning_witness :
  let st := (serve empty ["CSQ_REGFI a h1 h2"; "CSQ_REGCK p h1 h2";
                          "CSQ_REGCK q h2"]).1 in
  ∃ n,
    PyDict.get (listing st) "a" = Some n
    ∧ (["h1"; "h2"] = [] → n = 0)
    ∧ (["h1"; "h2"] ≠ [] →
       ∃ full : gset string,
         n = size full
         ∧ ∀ p, p ∈ full
                ↔ ∀ h, h ∈ ["h1"; "h2"] →
                       ∃ s, chunks st !! h = Some s ∧ p ∈ s)
    ∧ (∀ h, h ∈ ["h1"; "h2"] → n ≤ size (default ∅ (chunks st !! h))).
Proof.
  apply (seed_count_meaning
           (serve empty ["CSQ_REGFI a h1 h2"; "CSQ_REGCK p h1 h2";
                         "CSQ_REGCK q h2"]).1 "a" ["h1"; "h2"]).
  reflexivity.
Defined.

(** *** More on REGCK *)

Lemma regck_twice (cks : gmap string (gset string)) peer chunk_hashes :
  regck (regck cks peer chunk_hashes).1 peer chunk_hashes
  = regck cks peer chunk_hashes.
Proof.
  destruct (regck_spec peer chunk_hashes cks 0) as (Hd & Hl & Hc).
  destruct (regck_spec peer chunk_hashes
              (foldl (regck_step peer) (cks, 0) chunk_hashes).1 0)
    as (Hd2 & Hl2 & Hc2).
  unfold regck. apply injective_projections.
  - apply map_eq. intros h. rewrite Hl2, Hl. case_decide; [|done].
    destruct (cks !! h) as [s|]; cbn; [|done]. f_equal. set_solver.
  - by rewrite Hc2, Hc, Hd.
Qed.

(** X6. REGCK is idempotent: the same message served a second time
    leaves the registry as the first time left it and is answered with the
    same count. *)
Theorem regck_idempotent st data st1 reply :
  PyStr.take 9 data = "CSQ_REGCK" →
  handle_request st data = Some (st1, reply) →
  handle_request st1 data = Some (st1, reply).
Proof.
  intros Htag. rewrite !(handle_regck _ _ Htag).
  destruct (PyStr.split (PyStr.drop 10 data)) as [|peer hs]; [done|].
  cbv zeta. intros [= <- <-]. cbn [files chunks]. by rewrite regck_twice.
Qed.

Lemma regck_idempotent_witness :
  let st := (serve empty ["CSQ_REGFI a h1 h2"]).1 in
  let st1 := {| files := files st;
                chunks := (regck (chunks st) "p" ["h1"; "zz"]).1 |} in
  handle_request st1 "CSQ_REGCK p h1 zz" = Some (st1, "CSS_REGCK 1").
Proof.
  apply (regck_idempotent (serve empty ["CSQ_REGFI a h1 h2"]).1);
    vm_compute; reflexivity.
Defined.

Lemma handle_request_seeder st data st' reply h s' p :
  handle_request st data = Some (st', reply) →
  chunks st' !! h = Some s' → p ∈ s' →
  (∃ s, chunks st !! h = Some s ∧ p ∈ s)
  ∨ (PyStr.take 9 data = "CSQ_REGCK"
     ∧ ∃ hs, PyStr.split (PyStr.drop 10 data) = p :: hs ∧ h ∈ hs).
Proof.
  unfold handle_request. change (MSG_TYPE_SIZE - 1) with 9.
  change MSG_TYPE_SIZE with 10.
  destruct (data =? "")%string; [done|].
  repeat (match goal with
          | |- context [(PyStr.take 9 data =? ?t)%string] =>
              destruct (String.eqb_spec (PyStr.take 9 data) t)
          end).
  all: try (destruct (PyStr.split (PyStr.drop 10 data)) as [|x l]; [done|]).
  all: intros [= <- <-]; cbn [chunks regfi].
  all: try (intros ? ?; left; by eexists).
  - rewrite regfi_chunks_lookup. case_decide.
    + intros [= <-] ?. set_solver.
    + intros ? ?. left. by eexists.
  - destruct (regck_spec x l (chunks st) 0) as (_ & Hl & _).
    unfold regck. rewrite Hl. case_decide as Hh.
    + destruct (chunks st !! h) as [s|]; cbn; [|done].
      intros [= <-] [Hp| ->%elem_of_singleton]%elem_of_union.
      * left. by eexists.
      * right. split; [done|]. by exists l.
    + intros ? ?. left. by eexists.
  - rewrite urgpr_lookup. destruct (chunks st !! h) as [s|]; cbn; [|done].
    intros [= <-] Hp. left. exists s. split; [done|set_solver].
  - rewrite urgck_lookup. destruct (chunks st !! h) as [s|]; cbn;
      case_decide; cbn; try done.
    + intros [= <-] Hp. left. exists s. split; [done|set_solver].
    + intros [= <-] Hp. left. by exists s.
Qed.

(** X7. In every registry the loop reaches from the empty maps, a peer
    is a seeder of a chunk only if one of the messages served was a REGCK
    of that peer that listed the chunk: no other request makes a peer a
    seeder. *)
Theorem seeders_come_from_regck (msgs : list string) h s p :
  chunks (serve empty msgs).1 !! h = Some s → p ∈ s →
  ∃ data hs,
    data ∈ msgs ∧ PyStr.take 9 data = "CSQ_REGCK"
    ∧ PyStr.split (PyStr.drop 10 data) = p :: hs ∧ h ∈ hs.
Proof.
  assert (∀ st, chunks (serve st msgs).1 !! h = Some s → p ∈ s →
            (∃ s0, chunks st !! h = Some s0 ∧ p ∈ s0)
            ∨ ∃ data hs,
                data ∈ msgs ∧ PyStr.take 9 data = "CSQ_REGCK"
                ∧ PyStr.split (PyStr.drop 10 data) = p :: hs ∧ h ∈ hs)
    as Hgen.
  { revert s. induction msgs as [|data msgs IH]; intros s st Hs Hp.
    - left. by exists s.
    - cbn [serve] in Hs.
      destruct (handle_request st data) as [[st' reply]|] eqn:Hstep.
      + cbn [fst] in Hs. destruct (IH s st' Hs Hp) as [(s1 & Hs1 & Hp1)|Hlater].
        * destruct (handle_request_seeder _ _ _ _ _ _ _ Hstep Hs1 Hp1)
            as [?|(Htag & hs & Hsplit & Hh)]; [by left|].
          right. exists data, hs. split_and!; try done.
          apply elem_of_cons. by left.
        * destruct Hlater as (d & hs & Hd & ?). right. exists d, hs.
          split_and!; try tauto. apply elem_of_cons. by right.
      + left. by exists s. }
  intros Hs Hp. destruct (Hgen empty Hs Hp) as [(s0 & Hs0 & _)|?]; [|done].
  cbn in Hs0. by rewrite lookup_empty in Hs0.
Qed.

Lemma seeders_come_from_regck_witness :
  ∃ data hs,
    data ∈ ["CSQ_REGFI a h1 h2"; "CSQ_REGCK p h1"; "CSQ_URGPR q"]
    ∧ PyStr.take 9 data = "CSQ_REGCK"
    ∧ PyStr.split (PyStr.drop 10 data) = "p" :: hs ∧ "h1" ∈ hs.
Proof.
  apply (seeders_come_from_regck
           ["CSQ_REGFI a h1 h2"; "CSQ_REGCK p h1"; "CSQ_URGPR q"]
           "h1" {["p"]} "p").
  - vm_compute. reflexivity.
  - by apply elem_of_singleton.
Defined.

End Tracker.

(** ** SHA-1 ([hashlib.sha1(...).hexdigest()])

    The digest the peer computes for a chunk, after FIPS 180-4: padding,
    the message schedule and the eighty rounds on 32-bit words, which are
    numbers in [N] kept below [2^32]. *)

Module Sha1.
Local Open Scope N_scope.

Definition mask32 (x : N) : N := N.land x 0xFFFFFFFF.

Definition add32 (x y : N) : N := mask32 (x + y).

Definition rotl (n x : N) : N :=
  mask32 (N.lor (N.shiftl x n) (N.shiftr x (32 - n))).

(** The eight bytes of [n], most significant first. *)
Definition be64 (n : N) : list N :=
  (λ i, N.land (N.shiftr n (8 * i)) 0xFF) <$> [7; 6; 5; 4; 3; 2; 1; 0].

(** Padding to a multiple of 64 bytes: the byte [0x80], zero bytes, and
    the length of the message in bits. *)
Definition pad (msg : list N) : list N :=
  let len := N.of_nat (length msg) in
  msg ++ [0x80] ++ repeat 0 (N.to_nat ((119 - len mod 64) mod 64))
      ++ be64 (8 * len).

(** The big-endian words of a block. *)
Fixpoint words (bs : list N) : list N :=
  match bs with
  | b0 :: b1 :: b2 :: b3 :: rest =>
      N.lor (N.shiftl b0 24)
        (N.lor (N.shiftl b1 16) (N.lor (N.shiftl b2 8) b3))
      :: words rest
  | _ => []
  end.

(** The message schedule, most recent word first. *)
Fixpoint extend (n : nat) (w : list N) : list N :=
  match n with
  | O => w
  | S n' =>
      let x := N.lxor (N.lxor (nth 2 w 0) (nth 7 w 0))
                      (N.lxor (nth 13 w 0) (nth 15 w 0)) in
      extend n' (rotl 1 x :: w)
  end.

Definition schedule (block : list N) : list N :=
  rev (extend 64 (rev (words block))).

Definition round (t : nat) (st : N * N * N * N * N) (w : N)
    : N * N * N * N * N :=
  let '(a, b, c, d, e) := st in
  let '(f, k) :=
    if (t <? 20)%nat then
      (N.lor (N.land b c) (N.land (N.lxor b 0xFFFFFFFF) d), 0x5A827999)
    else if (t <? 40)%nat then
      (N.lxor (N.lxor b c) d, 0x6ED9EBA1)
    else if (t <? 60)%nat then
      (N.lor (N.lor (N.land b c) (N.land b d)) (N.land c d), 0x8F1BBCDC)
    else
      (N.lxor (N.lxor b c) d, 0xCA62C1D6) in
  (add32 (add32 (add32 (add32 (rotl 5 a) f) e) k) w, a, rotl 30 b, c, d).

Fixpoint rounds (t : nat) (ws : list N) (st : N * N * N * N * N)
    : N * N * N * N * N :=
  match ws with
  | [] => st
  | w :: ws' => rounds (S t) ws' (round t st w)
  end.

Definition compress (h : N * N * N * N * N) (block : list N)
    : N * N * N * N * N :=
  let '(h0, h1, h2, h3, h4) := h in
  let '(a, b, c, d, e) := rounds 0 (schedule block) h in
  (add32 h0 a, add32 h1 b, add32 h2 c, add32 h3 d, add32 h4 e).

Fixpoint blocks (n : nat) (bs : list N) (h : N * N * N * N * N)
    : N * N * N * N * N :=
  match n with
  | O => h
  | S n' => blocks n' (drop 64 bs) (compress h (take 64 bs))
  end.

Definition hex_digit (n : N) : ascii :=
  ascii_of_N (if n <? 10 then 48 + n else 87 + n).

(** The eight lower-case hexadecimal digits of a word. *)
Definition hex32 (x : N) : string :=
  foldr (λ i s, String (hex_digit (N.land (N.shiftr x (4 * i)) 0xF)) s)
    EmptyString [7; 6; 5; 4; 3; 2; 1; 0].

Definition hexdigest (msg : list Byte.byte) : string :=
  let bs := pad (Byte.to_N <$> msg) in
  let '(h0, h1, h2, h3, h4) :=
    blocks (length bs / 64) bs
      (0x67452301, 0xEFCDAB89, 0x98BADCFE, 0x10325476, 0xC3D2E1F0) in
  (hex32 h0 +:+ hex32 h1 +:+ hex32 h2 +:+ hex32 h3 +:+ hex32 h4)%string.

(** The test vectors of the standard. *)
Example hexdigest_empty :
  hexdigest [] = "da39a3ee5e6b4b0d3255bfef95601890afd80709"%string.
Proof. vm_compute. reflexivity. Qed.

Example hexdigest_abc :
  hexdigest (String.list_byte_of_string "abc")
  = "a9993e364706816aba3e25717850c26c9cd0d89d"%string.
Proof. vm_compute. reflexivity. Qed.

Example hexdigest_two_blocks :
  hexdigest (String.list_byte_of_string
               "abcdbcdecdefdefgefghfghighijhijkijkljklmklmnlmnomnopnopq")
  = "84983e441c3bd26ebaae4aa1f95129e5e54670f1"%string.
Proof. vm_compute. reflexivity. Qed.

Lemma hex_digit_no_space (n : N) :
  PyStr.is_space (hex_digit (N.land n 0xF)) = false.
Proof.
  assert (N.land n 0xF < 16) as Hlt.
  { change 0xF with (N.ones 4). rewrite N.land_ones. by apply N.mod_lt. }
  destruct (N.land n 0xF) as [|p]; [reflexivity|].
  do 4 (try destruct p as [p|p|]); try lia; reflexivity.
Qed.

Lemma hex32_no_space (x : N) : PyStr.no_space (hex32 x) = true.
Proof.
  unfold hex32. cbn [foldr PyStr.no_space].
  by rewrite !hex_digit_no_space.
Qed.

Lemma no_space_append (a b : string) :
  PyStr.no_space (a +:+ b)%string = PyStr.no_space a && PyStr.no_space b.
Proof.
  induction a as [|c a IH]; [done|].
  rewrite PyStr.append_cons. cbn [PyStr.no_space].
  by rewrite IH, andb_assoc.
Qed.

(** A digest is a word: forty hexadecimal digits, none of them a space. *)
Lemma hexdigest_word (msg : list Byte.byte) :
  PyStr.is_word (hexdigest msg) = true.
Proof.
  unfold hexdigest.
  destruct (blocks _ _ _) as [[[[h0 h1] h2] h3] h4].
  unfold PyStr.is_word. apply andb_true_iff. split.
  - unfold hex32 at 1. by cbn [foldr].
  - by rewrite !no_space_append, !hex32_no_space.
Qed.

End Sha1.


(** ** The peer ([peer.py]) *)

Module Peer.

Abbreviation bytes := (list Byte.byte).

Definition MSG_TYPE_SIZE : nat := Tracker.MSG_TYPE_SIZE.

(** *** Chunking: [chunk_file] and [hash_chunks] *)

Section Chunking.

(** [config.CHUNK_SIZE], which is not part of the sources. *)
Variable CHUNK_SIZE : nat.

(** [f.read(n)] on the bytes that are left of the file: the bytes read
    and the bytes left after them. *)
Definition read (n : nat) (f : bytes) : bytes * bytes := (take n f, drop n f).

(** The [while True] loop of [chunk_file]; [None] when the fuel does not
    suffice to reach the [break]. *)
Fixpoint chunk_loop (fuel : nat) (f : bytes) (chunks : list bytes)
    : option (list bytes) :=
  match fuel with
  | O => None
  | S fuel' =>
      let '(chunk, f') := read CHUNK_SIZE f in
      match chunk with
      | [] => Some chunks
      | _ => chunk_loop fuel' f' (chunks ++ [chunk])
      end
  end.

Definition chunk_file (contents : bytes) : option (list bytes) :=
  chunk_loop (S (length contents)) contents [].

Definition hash_chunks (chunks : list bytes) : list string :=
  Sha1.hexdigest <$> chunks.

(** What the loop yields for the bytes [f]. *)
Definition chunking (f : bytes) (cs : list bytes) : Prop :=
  Forall (λ c : bytes, 0 < length c ≤ CHUNK_SIZE) cs
  ∧ (∀ i (c : bytes),
       cs !! i = Some c → S i < length cs → length c = CHUNK_SIZE)
  ∧ concat cs = f.

Lemma chunk_loop_spec fuel (f : bytes) (acc : list bytes) :
  0 < CHUNK_SIZE → length f < fuel →
  ∃ cs, chunk_loop fuel f acc = Some (acc ++ cs) ∧ chunking f cs.
Proof.
  intros Hpos. revert f acc.
  induction fuel as [|fuel IH]; intros f acc Hfuel; [lia|].
  cbn [chunk_loop read].
  destruct (take CHUNK_SIZE f) as [|b chunk] eqn:Htake.
  - exists []. rewrite app_nil_r. split; [done|].
    assert (f = []) as ->.
    { destruct f; [done|]. destruct CHUNK_SIZE; [lia|done]. }
    split_and!; [constructor|by intros i c ?|done].
  - assert (length (b :: chunk) = CHUNK_SIZE `min` length f) as Hlen
      by (by rewrite <- Htake, length_take).
    assert (f ≠ []) as Hne by (intros ->; by rewrite take_nil in Htake).
    assert (0 < length f) by (destruct f; [done|simpl; lia]).
    destruct (IH (drop CHUNK_SIZE f) (acc ++ [b :: chunk])) as (cs & Heq & HF & Hfull & Hcat).
    { rewrite length_drop. lia. }
    exists ((b :: chunk) :: cs). split.
    { rewrite Heq. by rewrite <- app_assoc. }
    split_and!.
    + constructor; [|done]. lia.
    + intros [|i] c Hc Hi.
      * injection Hc as <-. rewrite Hlen.
        destruct cs as [|c' cs']; [simpl in Hi; lia|].
        assert (0 < length (drop CHUNK_SIZE f)).
        { rewrite <- Hcat. simpl. rewrite length_app.
          apply Forall_cons in HF as [? _]. lia. }
        rewrite length_drop in *. lia.
      * simpl in Hc, Hi. apply (Hfull i); [done|lia].
    + change (concat ((b :: chunk) :: cs)) with ((b :: chunk) ++ concat cs).
      rewrite Hcat, <- Htake. apply take_drop.
Qed.

(** C6. Splitting the bytes of a file returns a list of chunks, each of
    at most [CHUNK_SIZE] bytes and none of them empty, all but the last
    one of exactly [CHUNK_SIZE] bytes, whose concatenation in order is the
    bytes of the file. *)
Theorem chunk_file_roundtrip (contents : bytes) :
  0 < CHUNK_SIZE →
  ∃ chunks,
    chunk_file contents = Some chunks
    ∧ Forall (λ c : bytes, 0 < length c ≤ CHUNK_SIZE) chunks
    ∧ (∀ i (c : bytes),
         chunks !! i = Some c → S i < length chunks →
         length c = CHUNK_SIZE)
    ∧ concat chunks = contents.
Proof.
  intros Hpos. unfold chunk_file.
  destruct (chunk_loop_spec (S (length contents)) contents [] Hpos)
    as (cs & Heq & Hcs); [lia|].
  exists cs. by rewrite Heq.
Qed.

End Chunking.

Lemma chunk_file_roundtrip_witness :
  let contents := String.list_byte_of_string "hello, world" in
  ∃ chunks,
    chunk_file 5 contents = Some chunks
    ∧ Forall (λ c : bytes, 0 < length c ≤ 5) chunks
    ∧ (∀ i (c : bytes),
         chunks !! i = Some c → S i < length chunks → length c = 5)
    ∧ concat chunks = contents.
Proof.
  apply (chunk_file_roundtrip 5 (String.list_byte_of_string "hello, world")).
  lia.
Defined.

Example chunk_file_hello :
  chunk_file 5 (String.list_byte_of_string "hello, world")
  = Some (String.list_byte_of_string <$> ["hello"; ", wor"; "ld"]).
Proof. reflexivity. Qed.

(** *** Peer selection: [choose_peer] *)

(** A peer address, [(host, port)]. *)
Definition address : Type := string * Z.

(** What the probe of one candidate comes to. *)
Inductive probe :=
| Fails
  (** connecting, sending or receiving raises [ConnectionError] or
      [TimeoutError], which the loop catches *)
| Escapes
  (** another exception is raised, which the loop does not catch:
      another [OSError] on connecting, a reply that does not decode *)
| Receives (data : string).
  (** the data received, decoded *)

(** What a function that may raise comes to. *)
Inductive outcome (A : Type) :=
| Returns (a : A)
| Raises.

Arguments Returns {A} a.
Arguments Raises {A}.

(** The body of the loop over the candidates: the dictionary
    [active_peers] after one more candidate, unless an exception has left
    the loop. *)
Definition probe_step (active_peers : outcome (list (address * string)))
    (candidate : address * probe) : outcome (list (address * string)) :=
  match active_peers with
  | Raises => Raises
  | Returns active_peers =>
      match candidate.2 with
      | Fails => Returns active_peers
      | Escapes => Raises
      | Receives data =>
          if (data =? "")%string
             && negb (PyStr.drop MSG_TYPE_SIZE data =? "PPS_PPONG")%string
          then Returns active_peers
          else Returns (PyDict.set active_peers candidate.1
                          (PyStr.drop MSG_TYPE_SIZE data))
      end
  end.

(** [min(d, key=lambda k: d[k])] from the best entry so far: a later
    entry replaces it when its value is smaller, and the values are
    [str], which Python orders character by character. *)
Fixpoint min_from (best : address * string) (rest : list (address * string))
    : address :=
  match rest with
  | [] => best.1
  | x :: rest' =>
      if (x.2 <? best.2)%string then min_from x rest' else min_from best rest'
  end.

(** [min(d, key=lambda k: d[k], default=None)] *)
Definition py_min (d : list (address * string)) : option address :=
  match d with
  | [] => None
  | x :: rest => Some (min_from x rest)
  end.

Definition choose_peer (peers : list (address * probe))
    : outcome (option address) :=
  match foldl probe_step (Returns []) peers with
  | Raises => Raises
  | Returns active_peers => Returns (py_min active_peers)
  end.

(** The candidate answered the probe: it is given a load. *)
Definition answered (candidate : address * probe) : bool :=
  match candidate.2 with
  | Receives data => negb (data =? "")%string
  | Fails | Escapes => false
  end.

(** The probe of the candidate raises an exception that is not caught. *)
Definition escapes (candidate : address * probe) : bool :=
  match candidate.2 with
  | Escapes => true
  | Fails | Receives _ => false
  end.

(** The load in the words of the specification: the worker count that
    the reply reports, as a number. *)
Definition numeric_load (reply : string) : option N :=
  N.of_uint <$> NilEmpty.uint_of_string (PyStr.drop MSG_TYPE_SIZE reply).

Lemma probe_step_raises peers : foldl probe_step Raises peers = Raises.
Proof. by induction peers. Qed.

Lemma probe_step_returns active_peers candidate :
  probe_step (Returns active_peers) candidate
  = if escapes candidate then Raises
    else if answered candidate
    then Returns (PyDict.set active_peers candidate.1
                    (PyStr.drop MSG_TYPE_SIZE
                       match candidate.2 with
                       | Receives data => data
                       | Fails | Escapes => ""
                       end))
    else Returns active_peers.
Proof.
  unfold probe_step, answered, escapes.
  destruct candidate.2 as [| |data]; [done..|]. by destruct data.
Qed.

Lemma set_not_nil {K V} `{EqDecision K} (d : list (K * V)) k v :
  PyDict.set d k v ≠ [].
Proof. destruct d as [|[k' v'] d]; simpl; [done|]. by case_decide. Qed.

Lemma probes_nil_iff peers acc :
  foldl probe_step (Returns acc) peers = Returns []
  ↔ acc = []
    ∧ forallb (λ c, negb (answered c) && negb (escapes c)) peers = true.
Proof.
  revert acc. induction peers as [|c peers IH]; intros acc.
  - cbn. split; [by intros [= ->]|by intros [-> _]].
  - cbn [foldl forallb]. rewrite probe_step_returns.
    destruct (escapes c).
    { rewrite probe_step_raises, andb_false_r. cbn. split; [done|].
      by intros [_ ?]. }
    rewrite andb_true_r. destruct (answered c); rewrite IH; cbn [negb andb].
    + split; [|by intros [_ ?]]. intros [[]%set_not_nil _].
    + tauto.
Qed.

Lemma probes_raise_iff peers acc :
  foldl probe_step (Returns acc) peers = Raises
  ↔ existsb escapes peers = true.
Proof.
  revert acc. induction peers as [|c peers IH]; intros acc; [done|].
  cbn [foldl existsb]. rewrite probe_step_returns.
  destruct (escapes c).
  - by rewrite probe_step_raises.
  - cbn [orb]. destruct (answered c); apply IH.
Qed.

(** X24. [choose_peer] returns no peer exactly when the probe of every
    candidate ends in an exception that the loop catches or receives no
    data; it is so for the empty list of candidates.  It raises exactly
    when the probe of some candidate raises an exception that the loop
    does not catch.  In the other cases some candidate has received data,
    whatever the data says, and a peer is returned. *)
Theorem choose_peer_none_iff peers :
  (choose_peer peers = Returns None
   ↔ forallb (λ c, negb (answered c) && negb (escapes c)) peers = true)
  ∧ (choose_peer peers = Raises ↔ existsb escapes peers = true)
  ∧ ((∃ a, choose_peer peers = Returns (Some a))
     ↔ existsb answered peers = true ∧ existsb escapes peers = false).
Proof.
  pose proof (probes_nil_iff peers []) as Hnil.
  pose proof (probes_raise_iff peers []) as Hraise.
  assert (forallb (λ c, negb (answered c) && negb (escapes c)) peers = true
          ↔ existsb answered peers = false ∧ existsb escapes peers = false)
    as Hall.
  { clear. induction peers as [|c peers IH]; [done|].
    cbn [forallb existsb]. rewrite andb_true_iff, IH, !orb_false_iff.
    destruct (answered c), (escapes c); cbn; intuition congruence. }
  unfold choose_peer, py_min.
  destruct (foldl probe_step (Returns []) peers) as [[|x rest]|] eqn:E.
  - assert (forallb (λ c, negb (answered c) && negb (escapes c)) peers = true)
      as Hq by (by apply Hnil).
    split_and!; [done| |].
    + split; [done|]. intros He. by apply Hraise in He.
    + split; [by intros [a [=]]|]. intros [Ha _].
      apply Hall in Hq as [Hq _]. congruence.
  - assert (existsb escapes peers = false) as He.
    { apply not_true_is_false. intros He. by apply Hraise in He. }
    assert (forallb (λ c, negb (answered c) && negb (escapes c)) peers
            = false) as Hq.
    { apply not_true_is_false. intros Hq.
      assert (Returns (x :: rest) = Returns []) as [=].
      by apply Hnil. }
    split_and!.
    + split; [done|]. intros Hq'. congruence.
    + split; [done|]. intros He'. congruence.
    + split; [|by eexists]. intros _. split; [|done].
      destruct (existsb answered peers) eqn:Ha; [done|].
      exfalso. assert (forallb (λ c, negb (answered c) && negb (escapes c))
                         peers = true) by (by apply Hall). congruence.
  - assert (existsb escapes peers = true) as He by (by apply Hraise).
    split_and!.
    + split; [done|]. intros [_ He']%Hall. congruence.
    + done.
    + split; [by intros [a [=]]|]. intros [_ He']. congruence.
Qed.

Lemma ltb_negb_leb (x y : string) :
  (x <? y)%string = negb (y <=? x)%string.
Proof.
  unfold String.ltb, String.leb. rewrite (String.compare_antisym x y).
  by destruct (y ?= x)%string.
Qed.

(** The peer selected is one that answered, and the load recorded for it
    is least among the loads recorded, in the order of [str]. *)
Lemma min_from_spec best rest :
  ∃ load, (min_from best rest, load) ∈ best :: rest
          ∧ ∀ x, x ∈ best :: rest → String.le load x.2.
Proof.
  revert best. induction rest as [|y rest IH]; intros best.
  - exists best.2. split.
    + destruct best. by apply list_elem_of_singleton.
    + by intros x ->%list_elem_of_singleton.
  - cbn [min_from]. destruct (y.2 <? best.2)%string eqn:Hlt.
    + destruct (IH y) as (load & Hin & Hmin). exists load. split.
      * apply elem_of_cons. by right.
      * intros x [->|Hx]%elem_of_cons; [|by apply Hmin].
        trans y.2; [apply Hmin, elem_of_cons; by left|].
        unfold String.le, String.leb. unfold String.ltb in Hlt.
        by destruct (y.2 ?= best.2)%string.
    + destruct (IH best) as (load & Hin & Hmin). exists load. split.
      * apply elem_of_cons in Hin as [Hin|Hin].
        -- rewrite Hin. apply elem_of_cons. by left.
        -- apply elem_of_cons. right. apply elem_of_cons. by right.
      * intros x [->|[->|Hx]%elem_of_cons]%elem_of_cons.
        -- apply Hmin, elem_of_cons. by left.
        -- trans best.2; [apply Hmin, elem_of_cons; by left|].
           rewrite ltb_negb_leb in Hlt. apply negb_false_iff in Hlt.
           unfold String.le. by rewrite Hlt.
        -- apply Hmin, elem_of_cons. by right.
Qed.

Lemma choose_peer_least peers a :
  choose_peer peers = Returns (Some a) →
  ∃ active_peers load,
    foldl probe_step (Returns []) peers = Returns active_peers
    ∧ (a, load) ∈ active_peers
    ∧ ∀ x, x ∈ active_peers → String.le load x.2.
Proof.
  unfold choose_peer, py_min.
  destruct (foldl probe_step (Returns []) peers) as [[|best rest]|];
    [done| |done].
  intros [= <-]. destruct (min_from_spec best rest) as (load & ? & ?).
  by exists (best :: rest), load.
Qed.

(** C2, on the code.  Two candidates answer, the first one with the load
    10 and the second one with the load 9: the loads are compared as
    [str], so the first candidate is selected although the load of the
    second one is the least number. *)
Theorem choose_peer_compares_text :
  let busy := ("10.0.0.1", 4000%Z) in
  let idle := ("10.0.0.2", 4000%Z) in
  choose_peer [(busy, Receives "PPS_PPONG 10"); (idle, Receives "PPS_PPONG 9")]
  = Returns (Some busy)
  ∧ numeric_load "PPS_PPONG 10" = Some 10%N
  ∧ numeric_load "PPS_PPONG 9" = Some 9%N
  ∧ (9 < 10)%N.
Proof. split_and!; [reflexivity..|lia]. Qed.

(** *** Seeding: [handle_peer] and the accept loop

    The connections are taken one after the other: the worker of a
    connection runs until it returns, exits or blocks before the next
    connection arrives.  Under this schedule the threads alive are the
    main thread, the worker that runs and the workers that wait for the
    semaphore. *)

Section Seeding.

(** [config.MAX_THREADS_COUNT] and [config.CHUNK_SIZE], which are not
    part of the sources. *)
Variable MAX_THREADS_COUNT : nat.
Variable CHUNK_SIZE : nat.

(** What a path names when it names something. *)
Inductive node :=
| File (contents : bytes)
| Directory.

Record seeder := Seeder {
  (** the value of [peers_semaphore] *)
  permits : nat;
  (** the workers blocked in [peers_semaphore.acquire()] *)
  waiting : nat;
  (** what the path [chunks/<user_identification>/<name>] names, by the
      text [<name>] of a request: the file of a chunk, or a directory, as
      for the empty name and for [.]; a name with separators is a path
      as any other *)
  store : gmap string node
}.

(** What becomes of a connection. *)
Inductive served :=
| Sent (msg : bytes)   (** the worker sent [msg] and closed the connection *)
| Returned             (** the worker returned on empty data *)
| Raised               (** the worker died in [open], nothing was sent *)
| Blocked              (** the worker waits for the semaphore *)
| NotAccepted.         (** the accept loop spins and never accepts *)

Definition encode (s : string) : bytes := String.list_byte_of_string s.

(** [handle_peer] on what the connection sends, of which one [recv]
    takes the first [MSG_TYPE_SIZE + CHUNK_SIZE] characters: the seeder
    after the worker, and what the worker did.  A worker that reaches the
    end of the function releases the permit it acquired, so the seeder is
    as before; a worker that leaves through [return], through [sys.exit]
    or on an exception keeps it. *)
Definition handle_peer (st : seeder) (sent : string) : seeder * served :=
  match permits st with
  | O => ({| permits := 0; waiting := S (waiting st); store := store st |},
          Blocked)
  | S p =>
      let held := {| permits := p; waiting := waiting st;
                     store := store st |} in
      let data := PyStr.take (MSG_TYPE_SIZE + CHUNK_SIZE) sent in
      if (data =? "")%string then (held, Returned) else
      let req_type := PyStr.take (MSG_TYPE_SIZE - 1) data in
      if (req_type =? "PPQ_PPING")%string then
        (st, Sent (encode ("PPS_PPONG " +:+ PyStr.of_nat (S (waiting st)))))
      else if (req_type =? "PPQ_GETCK")%string then
        let chunk_hash := PyStr.drop MSG_TYPE_SIZE data in
        match store st !! chunk_hash with
        | None =>
            (held,
             Sent (encode "PPS_ERROR Chunk unavailable on requested peer."))
        | Some Directory => (held, Raised)
        | Some (File chunk) => (st, Sent (encode "PPS_GETCK " ++ chunk))
        end
      else
        (st, Sent (encode ("CSS_ERROR Unknown request type '"
                           +:+ req_type +:+ "'.")))
  end.

(** One turn of the accept loop of the [seed] command. *)
Definition accept (st : seeder) (sent : string) : seeder * served :=
  if (MAX_THREADS_COUNT <=? S (waiting st))%nat then (st, NotAccepted)
  else handle_peer st sent.

(** The accept loop over the connections that arrive. *)
Fixpoint seed (st : seeder) (conns : list string) : list served :=
  match conns with
  | [] => []
  | sent :: conns' =>
      let r := accept st sent in r.2 :: seed r.1 conns'
  end.

Definition start (chunks_dir : gmap string node) : seeder :=
  {| permits := MAX_THREADS_COUNT; waiting := 0; store := chunks_dir |}.

Definition chunk_unavailable : served :=
  Sent (encode "PPS_ERROR Chunk unavailable on requested peer.").

(** A request for a chunk that is not held is answered by the error
    message, and the worker keeps the permit. *)
Lemma accept_getck_miss p chunks_dir chunk_hash :
  2 ≤ MAX_THREADS_COUNT →
  chunks_dir !! PyStr.take CHUNK_SIZE chunk_hash = None →
  accept {| permits := S p; waiting := 0; store := chunks_dir |}
    ("PPQ_GETCK " +:+ chunk_hash)
  = ({| permits := p; waiting := 0; store := chunks_dir |}, chunk_unavailable).
Proof.
  intros Hmax Hmiss. unfold accept. cbn [waiting].
  destruct (Nat.leb_spec MAX_THREADS_COUNT 1) as [?|_]; [lia|].
  unfold handle_peer. cbn [permits waiting store].
  change (PyStr.take (MSG_TYPE_SIZE + CHUNK_SIZE)
            ("PPQ_GETCK " +:+ chunk_hash))
    with ("PPQ_GETCK " +:+ PyStr.take CHUNK_SIZE chunk_hash).
  cbv zeta.
  change (PyStr.drop MSG_TYPE_SIZE
            ("PPQ_GETCK " +:+ PyStr.take CHUNK_SIZE chunk_hash))
    with (PyStr.take CHUNK_SIZE chunk_hash).
  change (PyStr.take (MSG_TYPE_SIZE - 1)
            ("PPQ_GETCK " +:+ PyStr.take CHUNK_SIZE chunk_hash))
    with "PPQ_GETCK".
  by rewrite Hmiss.
Qed.

Lemma seed_getck_misses p chunks_dir chunk_hash conns :
  2 ≤ MAX_THREADS_COUNT →
  chunks_dir !! PyStr.take CHUNK_SIZE chunk_hash = None →
  seed {| permits := p; waiting := 0; store := chunks_dir |}
    (repeat ("PPQ_GETCK " +:+ chunk_hash) p ++ conns)
  = repeat chunk_unavailable p
    ++ seed {| permits := 0; waiting := 0; store := chunks_dir |} conns.
Proof.
  intros Hmax Hmiss. induction p as [|p IH]; [done|].
  cbn [repeat app seed]. rewrite accept_getck_miss by done.
  cbn [fst snd]. by rewrite IH.
Qed.

(** C4, on the code.  Each request for a chunk that is not held is
    answered by the error message, but its worker leaves with the permit
    of the semaphore: after [MAX_THREADS_COUNT] such requests the worker
    of the next connection waits for a permit for ever and the connection
    is not answered.  The chunk looked up is the one named by the
    characters of the hash that the [recv] of the worker takes. *)
Theorem getck_miss_keeps_permit chunks_dir chunk_hash :
  2 ≤ MAX_THREADS_COUNT →
  chunks_dir !! PyStr.take CHUNK_SIZE chunk_hash = None →
  seed (start chunks_dir)
    (repeat ("PPQ_GETCK " +:+ chunk_hash) MAX_THREADS_COUNT ++ ["PPQ_PPING"])
  = repeat chunk_unavailable MAX_THREADS_COUNT ++ [Blocked].
Proof.
  intros Hmax Hmiss. unfold start. rewrite seed_getck_misses by done.
  f_equal. cbn [seed]. unfold accept. cbn [waiting].
  by destruct (Nat.leb_spec MAX_THREADS_COUNT 1) as [?|_]; [lia|].
Qed.

End Seeding.

Lemma getck_miss_keeps_permit_witness :
  seed 2 1024 (start 2 ∅) ["PPQ_GETCK 0a0b"; "PPQ_GETCK 0a0b"; "PPQ_PPING"]
  = [chunk_unavailable; chunk_unavailable; Blocked].
Proof.
  apply (getck_miss_keeps_permit 2 1024 ∅ "0a0b"); [lia|reflexivity].
Defined.

(** While permits are left, a request that follows the error is served. *)
Example seed_after_one_miss :
  seed 3 1024 (start 3 ∅) ["PPQ_GETCK 0a0b"; "PPQ_PPING"]
  = [chunk_unavailable; Sent (encode "PPS_PPONG 1")].
Proof. reflexivity. Qed.

(** *** Download: [download_file]

    The workers are run in the order in which they are started, each one
    until it returns, dies or blocks. *)

(** [chunks/] and the directory of the user in it.  The directory of the
    user holds files only, as [announce_chunks] takes it. *)
Inductive chunk_dir :=
| NoChunks     (** [chunks/] does not exist *)
| NoUserDir    (** [chunks/] exists, [chunks/<user_identification>] does not *)
| UserDir (files : gmap string bytes).
  (** the files of [chunks/<user_identification>], by name *)

(** The local files the download writes.  The [download] command makes
    [downloads/] when it is missing, not [chunks/]. *)
Record disk := Disk {
  chunk_files : chunk_dir;
  (** [downloads/<user_identification>/<file_name>], when it exists *)
  download : option bytes
}.

(** The characters of a file name: any but the separator and the null
    character. *)
Fixpoint name_chars (name : string) : bool :=
  match name with
  | EmptyString => true
  | String c name' =>
      negb (Ascii.eqb c "/") && negb (Ascii.eqb c "000") && name_chars name'
  end.

(** The names that [open(f"{dir}/{name}", "wb")] takes as a file of the
    directory [dir]: the empty name and the names [.] and [..] are
    directories, a null character is refused, a name with a separator is
    a path into another directory, which a directory of files does not
    have, and a file name holds at most 255 bytes. *)
Definition plain_name (name : string) : bool :=
  negb (name =? "")%string && negb (name =? ".")%string
  && negb (name =? "..")%string && name_chars name
  && (String.length name <=? 255)%nat.

(** The end of a worker that has received its chunk: [os.mkdir] of the
    directory of the user when it is missing, which raises without
    [chunks/], then [open] for writing and [write].  The directory
    afterwards, and whether the worker got through. *)
Definition write_chunk (dir : chunk_dir) (chunk_hash : string)
    (data : bytes) : chunk_dir * bool :=
  match dir with
  | NoChunks => (NoChunks, false)
  | NoUserDir =>
      if plain_name chunk_hash then (UserDir {[chunk_hash := data]}, true)
      else (UserDir ∅, false)
  | UserDir files =>
      if plain_name chunk_hash
      then (UserDir (<[chunk_hash := data]> files), true)
      else (UserDir files, false)
  end.

(** How the command ends. *)
Inductive ending :=
| Finished                              (** [download_file] returns *)
| Exit (status : nat) (message : string) (** [sys.exit] after a message *)
| Hang.                                 (** a worker never ends *)

(** What the tracker and the peers make of one chunk hash of the
    sequence. *)
Inductive fetch :=
| NoSeeders        (** the GETCK reply is empty *)
| NoActivePeer     (** [choose_peer] returns [None] *)
| Worker (data : option bytes).
  (** a worker is started for the peer selected; [data] is what
      [send_ppq_msg] returns to it, [None] when the thread dies before:
      the connection is refused, or the peer replies [PPS_ERROR] *)

Record session := Session {
  file_chunks : list (string * option bytes);
  files_on_disk : disk;
  (** the value of [semaphore] *)
  slots : nat;
  (** a worker is blocked in [semaphore.acquire()] *)
  stuck : bool
}.

(** [{ chunk_hash: None for chunk_hash in chunk_hashes }] *)
Definition new_file_chunks (chunk_hashes : list string)
    : list (string * option bytes) :=
  foldl (λ d chunk_hash, PyDict.set d chunk_hash None) [] chunk_hashes.

(** The assignment [file_chunks[chunk_hash] = data] of a worker, under
    its guard. *)
Definition record (fc : list (string * option bytes)) (chunk_hash : string)
    (data : bytes) : list (string * option bytes) :=
  if decide (chunk_hash ∈ PyDict.keys fc)
  then PyDict.set fc chunk_hash (Some data) else fc.

(** [handle_chunk], the worker of one chunk.  A worker that dies keeps
    the slot it acquired: the one that gets no data, and the one that
    raises on writing its chunk to the chunk directory, after it has
    recorded the chunk in [file_chunks]. *)
Definition handle_chunk (chunk_hash : string) (data : option bytes)
    (s : session) : session :=
  match slots s with
  | O => {| file_chunks := file_chunks s; files_on_disk := files_on_disk s;
            slots := 0; stuck := true |}
  | S n =>
      match data with
      | None => {| file_chunks := file_chunks s;
                   files_on_disk := files_on_disk s;
                   slots := n; stuck := stuck s |}
      | Some data =>
          if decide (chunk_hash ∈ PyDict.keys (file_chunks s)) then
            let w := write_chunk (chunk_files (files_on_disk s))
                       chunk_hash data in
            {| file_chunks := PyDict.set (file_chunks s) chunk_hash (Some data);
               files_on_disk :=
                 {| chunk_files := w.1;
                    download := download (files_on_disk s) |};
               slots := if w.2 then S n else n; stuck := stuck s |}
          else s
      end
  end.

(** The loop over the chunk hashes that starts the workers: the message
    of the [sys.exit(0)] that ends it early, if any. *)
Fixpoint dispatch (plan : list (string * fetch)) (s : session)
    : option string * session :=
  match plan with
  | [] => (None, s)
  | (chunk_hash, f) :: plan' =>
      match f with
      | NoSeeders => (Some "No active peers seeding.", s)
      | NoActivePeer => (Some "No active peers seeding.", s)
      | Worker data => dispatch plan' (handle_chunk chunk_hash data s)
      end
  end.

(** The loop over [file_chunks.items()] that checks each chunk and then
    appends it to the download file; [out] is the file, if it exists.
    The loop runs after the test that no value is [None]. *)
Fixpoint write_chunks (items : list (string * option bytes))
    (out : option bytes) : ending * option bytes :=
  match items with
  | [] => (Finished, out)
  | (chunk_hash, chunk) :: items' =>
      let chunk := default [] chunk in
      if decide (chunk_hash = Sha1.hexdigest chunk)
      then write_chunks items' (Some (default [] out ++ chunk))
      else (Exit 1 "Integrity check failed. Download compromised.", out)
  end.

(** The value of a chunk that no worker has recorded. *)
Definition missing (chunk : option bytes) : bool :=
  match chunk with
  | None => true
  | Some _ => false
  end.

(** [download_file] from the reply to GETFI on: [plan] lists the chunk
    hashes of the reply, each with what becomes of it. *)
Definition download_file (MAX_THREADS_COUNT : nat)
    (plan : list (string * fetch)) (d : disk) : ending * disk :=
  let chunk_hashes := plan.*1 in
  match chunk_hashes with
  | [] => (Exit 0 "File not available.", d)
  | _ =>
      let r := dispatch plan
                 {| file_chunks := new_file_chunks chunk_hashes;
                    files_on_disk := d;
                    slots := MAX_THREADS_COUNT; stuck := false |} in
      let s := r.2 in
      if stuck s then (Hang, files_on_disk s) else
      match r.1 with
      | Some message => (Exit 0 message, files_on_disk s)
      | None =>
          if existsb missing (PyDict.values (file_chunks s)) then
            (Exit 1 "Missing some chunks, download incomplete",
             files_on_disk s)
          else
            let w := write_chunks (file_chunks s)
                       (download (files_on_disk s)) in
            (w.1, {| chunk_files := chunk_files (files_on_disk s);
                     download := w.2 |})
      end
  end.

Definition bytes_of (s : string) : bytes := String.list_byte_of_string s.

(** C1, on the code.  The second of two chunks arrives corrupted: the
    download reports the integrity failure, after it has written the first
    chunk to the download file.  It is so whatever the chunk directory
    holds, and whether or not it exists. *)
Theorem download_integrity_failure_leaves_file (store : chunk_dir) :
  let plan :=
    [(Sha1.hexdigest (bytes_of "first chunk"),
      Worker (Some (bytes_of "first chunk")));
     (Sha1.hexdigest (bytes_of "second chunk"),
      Worker (Some (bytes_of "sec0nd chunk")))] in
  let r := download_file 4 plan {| chunk_files := store; download := None |} in
  r.1 = Exit 1 "Integrity check failed. Download compromised."
  ∧ download r.2 = Some (bytes_of "first chunk").
Proof. destruct store; vm_compute; split; reflexivity. Qed.

(** Only the loop that checks and writes the chunks touches the download
    file: a download that ends otherwise leaves it as it was. *)
Lemma handle_chunk_download chunk_hash data s :
  download (files_on_disk (handle_chunk chunk_hash data s))
  = download (files_on_disk s).
Proof.
  unfold handle_chunk. destruct (slots s); [done|].
  destruct data; [|done]. by case_decide.
Qed.

Lemma dispatch_download plan s :
  download (files_on_disk (dispatch plan s).2) = download (files_on_disk s).
Proof.
  revert s. induction plan as [|[h f] plan IH]; intros s; [done|].
  destruct f; cbn [dispatch]; try done.
  by rewrite IH, handle_chunk_download.
Qed.


(** A chunk whose digest is not its hash makes the loop end with the
    integrity failure. *)
Lemma write_chunks_mismatch items out kv :
  kv ∈ items → kv.1 ≠ Sha1.hexdigest (default [] kv.2) →
  (write_chunks items out).1
  = Exit 1 "Integrity check failed. Download compromised.".
Proof.
  revert out. induction items as [|[h v] items IH]; intros out Hin Hne.
  - by apply elem_of_nil in Hin.
  - cbn [write_chunks]. case_decide as Hh; [|done].
    apply elem_of_cons in Hin as [->|Hin]; [done|]. by apply IH.
Qed.

(** **** A download from a seeder that holds the file *)

(** Every chunk hash of the sequence gets a worker, and the worker
    receives the chunk the file was split into. *)
Definition honest_plan (chunks : list bytes) : list (string * fetch) :=
  (λ c, (Sha1.hexdigest c, Worker (Some c))) <$> chunks.

Definition record_all (fc : list (string * option bytes))
    (chunks : list bytes) : list (string * option bytes) :=
  foldl (λ fc c, record fc (Sha1.hexdigest c) c) fc chunks.

Lemma honest_plan_hashes chunks :
  (honest_plan chunks).*1 = hash_chunks chunks.
Proof.
  unfold honest_plan, hash_chunks. by rewrite <- list_fmap_compose.
Qed.

Lemma hex_digit_name_char (n : N) :
  Ascii.eqb (Sha1.hex_digit (N.land n 0xF)) "/" = false
  ∧ Ascii.eqb (Sha1.hex_digit (N.land n 0xF)) "000" = false.
Proof.
  assert (N.land n 0xF < 16)%N as Hlt.
  { change 0xF%N with (N.ones 4). rewrite N.land_ones. by apply N.mod_lt. }
  destruct (N.land n 0xF) as [|p]; [split; reflexivity|].
  do 4 (try destruct p as [p|p|]); try lia; split; reflexivity.
Qed.

Lemma name_chars_append (a b : string) :
  name_chars (a +:+ b) = name_chars a && name_chars b.
Proof.
  induction a as [|c a IH]; [done|].
  rewrite PyStr.append_cons. cbn [name_chars].
  by rewrite IH, andb_assoc.
Qed.

Lemma hex32_name_chars (x : N) : name_chars (Sha1.hex32 x) = true.
Proof.
  unfold Sha1.hex32. cbn [foldr name_chars].
  repeat match goal with
         | |- context [Sha1.hex_digit (N.land ?n _)] =>
             destruct (hex_digit_name_char n) as [-> ->]
         end.
  done.
Qed.

Lemma hexdigest_length (msg : bytes) :
  String.length (Sha1.hexdigest msg) = 40.
Proof.
  unfold Sha1.hexdigest.
  destruct (Sha1.blocks _ _ _) as [[[[h0 h1] h2] h3] h4].
  cbv [String.append Sha1.hex32 foldr String.length]. reflexivity.
Qed.

(** A digest is a file name: forty hexadecimal digits. *)
Lemma hexdigest_plain (msg : bytes) : plain_name (Sha1.hexdigest msg) = true.
Proof.
  pose proof (hexdigest_length msg) as Hlen.
  unfold plain_name. rewrite Hlen.
  assert (name_chars (Sha1.hexdigest msg) = true) as ->.
  { unfold Sha1.hexdigest.
    destruct (Sha1.blocks _ _ _) as [[[[h0 h1] h2] h3] h4].
    by rewrite !name_chars_append, !hex32_name_chars. }
  assert (∀ w, String.length w ≠ 40 → (Sha1.hexdigest msg =? w)%string = false)
    as Hne.
  { intros w Hw. apply String.eqb_neq. intros Heq. by rewrite Heq in Hlen. }
  by rewrite !Hne.
Qed.

(** Workers that receive the chunks of the file record them all and none
    blocks, when the chunk directory can be written or there is a slot
    for each of them. *)
Lemma dispatch_honest chunks s :
  stuck s = false →
  match chunk_files (files_on_disk s) with
  | NoChunks => length chunks ≤ slots s
  | _ => 0 < slots s
  end →
  let r := dispatch (honest_plan chunks) s in
  r.1 = None
  ∧ file_chunks r.2 = record_all (file_chunks s) chunks
  ∧ stuck r.2 = false.
Proof.
  revert s. induction chunks as [|c cs IH]; intros s Hstuck Hslots; [done|].
  cbn [honest_plan fmap list_fmap dispatch]. fold (honest_plan cs).
  assert (stuck (handle_chunk (Sha1.hexdigest c) (Some c) s) = false
          ∧ file_chunks (handle_chunk (Sha1.hexdigest c) (Some c) s)
            = record (file_chunks s) (Sha1.hexdigest c) c
          ∧ match chunk_files
                    (files_on_disk
                       (handle_chunk (Sha1.hexdigest c) (Some c) s)) with
            | NoChunks =>
                length cs ≤ slots (handle_chunk (Sha1.hexdigest c) (Some c) s)
            | _ => 0 < slots (handle_chunk (Sha1.hexdigest c) (Some c) s)
            end) as (H1 & H2 & H3).
  { unfold handle_chunk, record, write_chunk.
    rewrite hexdigest_plain.
    destruct (slots s) as [|n] eqn:Hn.
    { destruct (chunk_files (files_on_disk s)); cbn [length] in Hslots; lia. }
    case_decide; [|split_and!; [done|done|];
                    destruct (chunk_files (files_on_disk s));
                    cbn [length] in Hslots; rewrite ?Hn; lia].
    destruct (chunk_files (files_on_disk s));
      cbn [length] in Hslots; cbn; split_and!; try done; lia. }
  destruct (IH _ H1 H3) as (-> & -> & ->). by rewrite H2.
Qed.






(** With distinct hashes every chunk has its own entry, in order. *)
Lemma record_all_distinct done rest :
  NoDup (hash_chunks (done ++ rest)) →
  record_all (((λ c, (Sha1.hexdigest c, Some c)) <$> done)
              ++ ((λ c, (Sha1.hexdigest c, None)) <$> rest)) rest
  = (λ c, (Sha1.hexdigest c, Some c)) <$> (done ++ rest).
Proof.
  revert done. induction rest as [|c rest IH]; intros done Hnd.
  - by rewrite !app_nil_r.
  - cbn [record_all foldl fmap list_fmap].
    assert (Sha1.hexdigest c
            ∉ PyDict.keys ((λ c, (Sha1.hexdigest c, Some c)) <$> done)) as Hc.
    { unfold PyDict.keys. rewrite <- list_fmap_compose.
      unfold hash_chunks in Hnd. rewrite fmap_app, fmap_cons in Hnd.
      apply NoDup_app in Hnd as (_ & Hdis & _). intros Hin.
      apply (Hdis _ Hin). apply elem_of_cons. by left. }
    unfold record at 2. rewrite decide_True.
    + rewrite PyDict.set_app_fresh by done.
      rewrite (cons_middle _ (_ <$> done)), app_assoc.
      change [(Sha1.hexdigest c, Some c)]
        with ((λ c, (Sha1.hexdigest c, Some c)) <$> [c]).
      rewrite <- fmap_app.
      fold (record_all (((λ c, (Sha1.hexdigest c, Some c)) <$> done ++ [c])
                        ++ ((λ c, (Sha1.hexdigest c, None)) <$> rest)) rest).
      rewrite IH; by rewrite <- app_assoc.
    + unfold PyDict.keys. rewrite fmap_app, fmap_cons.
      apply elem_of_app. right. apply elem_of_cons. by left.
Qed.

Lemma record_all_NoDup chunks :
  NoDup (hash_chunks chunks) →
  record_all (new_file_chunks (hash_chunks chunks)) chunks
  = (λ c, (Sha1.hexdigest c, Some c)) <$> chunks.
Proof.
  intros Hnd. unfold new_file_chunks.
  rewrite PyDict.foldl_set_fresh by done. rewrite app_nil_l.
  unfold hash_chunks. rewrite <- list_fmap_compose.
  apply (record_all_distinct [] chunks Hnd).
Qed.

(** The bytes of the chunks of [file_chunks], in the order of the
    dictionary. *)
Definition parts (fc : list (string * option bytes)) : list bytes :=
  (λ kv, default [] kv.2) <$> fc.

Lemma write_chunks_verified items out :
  (∀ kv, kv ∈ items → ∃ c, kv.2 = Some c ∧ kv.1 = Sha1.hexdigest c) →
  write_chunks items (Some out) = (Finished, Some (out ++ concat (parts items))).
Proof.
  revert out. induction items as [|[h v] items IH]; intros out Hok.
  - cbn. by rewrite app_nil_r.
  - destruct (Hok (h, v)) as (c & Hv & Hh); [apply elem_of_cons; by left|].
    cbn in Hv, Hh. subst v h. cbn [write_chunks default].
    rewrite decide_True by done. rewrite IH.
    + change (parts ((Sha1.hexdigest c, Some c) :: items))
        with (c :: parts items).
      cbn [concat]. by rewrite <- app_assoc.
    + intros kv ?. apply Hok, elem_of_cons. by right.
Qed.


Lemma no_missing (fc : list (string * option bytes)) :
  (∀ kv, kv ∈ fc → ∃ c : bytes, kv.2 = Some c) →
  existsb missing (PyDict.values fc) = false.
Proof.
  induction fc as [|[h v] fc IH]; intros Hok; [done|].
  destruct (Hok (h, v)) as (c & Hv); [apply elem_of_cons; by left|].
  cbn in Hv. subst v. cbn. apply IH.
  intros kv ?. apply Hok, elem_of_cons. by right.
Qed.

Lemma length_concat_le (n : nat) (l : list bytes) :
  Forall (λ c : bytes, length c ≤ n) l → length (concat l) ≤ length l * n.
Proof.
  induction 1 as [|c l Hc Hl IH]; [done|].
  cbn [concat length]. rewrite length_app. lia.
Qed.

(** The chunks of a file hold more bytes than one chunk less of them,
    all full, would. *)
Lemma chunking_length n (f : bytes) cs :
  0 < n → chunking n f cs → length cs * n < length f + n.
Proof.
  intros Hn (Hall & Hfull & <-).
  induction cs as [|c cs IH]; [cbn; lia|].
  apply Forall_cons in Hall as [Hc Hall].
  cbn [concat length]. rewrite length_app.
  destruct cs as [|c' cs'].
  - cbn. lia.
  - assert (length c = n) as -> by (apply (Hfull 0); [done|cbn; lia]).
    assert (length (c' :: cs') * n < length (concat (c' :: cs')) + n).
    { apply IH; [done|]. intros i x Hx Hi. apply (Hfull (S i)); [done|].
      cbn [length] in *. lia. }
    lia.
Qed.

Lemma chunk_file_chunking n (contents : bytes) chunks :
  0 < n → chunk_file n contents = Some chunks → chunking n contents chunks.
Proof.
  intros Hn Hcf. unfold chunk_file in Hcf.
  destruct (chunk_loop_spec n (S (length contents)) contents [] Hn)
    as (cs & Heq & Hcs); [lia|].
  rewrite Heq in Hcf. by injection Hcf as <-.
Qed.



(** A file of two equal chunks comes back as one chunk. *)
Example download_repeated_chunk :
  let chunks := [bytes_of "ab"; bytes_of "ab"] in
  chunk_file 2 (bytes_of "abab") = Some chunks
  ∧ hash_chunks chunks
    = ["da23614e02469a0d7c7bd1bdab5c9c474b1904dc";
       "da23614e02469a0d7c7bd1bdab5c9c474b1904dc"]
  ∧ download (download_file 4 (honest_plan chunks)
                {| chunk_files := UserDir ∅; download := None |}).2
    = Some (bytes_of "ab").
Proof. vm_compute. split_and!; reflexivity. Qed.

(** *** More on peer selection *)

Lemma ltb_le_trans (x y z : string) :
  (x <? y)%string = true → String.le y z → (x <? z)%string = true.
Proof.
  rewrite !ltb_negb_leb, !negb_true_iff. intros Hxy Hyz.
  destruct (z <=? x)%string eqn:Hzx; [|done].
  assert (String.le y x) as Hyx.
  { trans z; [done|]. unfold String.le. by rewrite Hzx. }
  unfold String.le in Hyx. by rewrite Hxy in Hyx.
Qed.

Lemma ltb_le (x y : string) : (x <? y)%string = true → String.le x y.
Proof.
  rewrite ltb_negb_leb, negb_true_iff. intros Hyx.
  destruct (total String.le x y) as [?|Hle]; [done|].
  unfold String.le in Hle. by rewrite Hyx in Hle.
Qed.

Lemma min_from_first best rest pre mid :
  (∀ x, x ∈ pre → (best.2 <? x.2)%string = true) →
  (∀ x, x ∈ mid → String.le best.2 x.2) →
  ∃ l1 load l2,
    pre ++ best :: mid ++ rest = l1 ++ (min_from best rest, load) :: l2
    ∧ (∀ x, x ∈ l1 → (load <? x.2)%string = true)
    ∧ (∀ x, x ∈ l2 → String.le load x.2).
Proof.
  revert best pre mid. induction rest as [|y rest IH]; intros best pre mid Hpre Hmid.
  - exists pre, best.2, mid. rewrite app_nil_r. by destruct best.
  - cbn [min_from]. destruct (y.2 <? best.2)%string eqn:Hlt.
    + destruct (IH y (pre ++ best :: mid) []) as (l1 & load & l2 & Heq & ?).
      * intros x [Hx|[->|Hx]%elem_of_cons]%elem_of_app.
        -- apply (ltb_le_trans _ best.2); [done|]. by apply ltb_le, Hpre.
        -- done.
        -- apply (ltb_le_trans _ best.2); [done|]. by apply Hmid.
      * by intros x ?%elem_of_nil.
      * exists l1, load, l2. split; [|done]. rewrite <- Heq.
        by rewrite <- !app_assoc, <- app_comm_cons.
    + destruct (IH best pre (mid ++ [y])) as (l1 & load & l2 & Heq & ?).
      * done.
      * intros x [Hx| ->%list_elem_of_singleton]%elem_of_app; [by apply Hmid|].
        rewrite ltb_negb_leb in Hlt. apply negb_false_iff in Hlt.
        unfold String.le. by rewrite Hlt.
      * exists l1, load, l2. split; [|done]. rewrite <- Heq.
        by rewrite <- !app_assoc.
Qed.

Lemma elem_of_probes peers acc active_peers kv :
  foldl probe_step (Returns acc) peers = Returns active_peers →
  kv ∈ active_peers →
  kv ∈ acc
  ∨ ∃ c data, c ∈ peers ∧ c = (kv.1, Receives data) ∧ data ≠ ""
              ∧ kv.2 = PyStr.drop MSG_TYPE_SIZE data.
Proof.
  revert acc. induction peers as [|c peers IH]; intros acc.
  { cbn. intros [= ->]. by left. }
  cbn [foldl]. rewrite probe_step_returns. destruct (escapes c).
  { by rewrite probe_step_raises. }
  unfold answered. destruct c as [a [| |data]]; cbn [fst snd].
  - intros Hrun Hkv. destruct (IH _ Hrun Hkv) as [?|(c' & d & ? & ?)];
      [by left|]. right. exists c', d. split; [|done].
    apply elem_of_cons. by right.
  - intros Hrun Hkv. destruct (IH _ Hrun Hkv) as [?|(c' & d & ? & ?)];
      [by left|]. right. exists c', d. split; [|done].
    apply elem_of_cons. by right.
  - destruct (String.eqb_spec data "") as [->|Hne]; cbn [negb];
      intros Hrun Hkv;
      (destruct (IH _ Hrun Hkv) as [Hin|(c' & d & ? & ?)];
       [|right; exists c', d; split; [|done]; apply elem_of_cons; by right]).
    + by left.
    + apply PyDict.elem_of_set in Hin as [->|?]; [|by left].
      right. exists (a, Receives data), data. split_and!; try done.
      apply elem_of_cons. by left.
Qed.

(** X8. When selection returns a peer, the peer is a candidate that
    answered its probe with some data, and among the loads recorded, in
    the order of the dictionary, its load is the first least one in the
    order of [str]: every entry before it has a greater load, no entry
    after it has a smaller one. *)
Theorem choose_peer_first_least peers a :
  choose_peer peers = Returns (Some a) →
  ∃ l1 load l2,
    foldl probe_step (Returns []) peers = Returns (l1 ++ (a, load) :: l2)
    ∧ (∀ x, x ∈ l1 → (load <? x.2)%string = true)
    ∧ (∀ x, x ∈ l2 → String.le load x.2)
    ∧ ∃ data, (a, Receives data) ∈ peers ∧ data ≠ ""
              ∧ load = PyStr.drop MSG_TYPE_SIZE data.
Proof.
  unfold choose_peer, py_min.
  destruct (foldl probe_step (Returns []) peers) as [[|best rest]|] eqn:E;
    [done| |done].
  intros [= <-].
  destruct (min_from_first best rest [] []) as (l1 & load & l2 & Heq & H1 & H2);
    [by intros x ?%elem_of_nil..|].
  cbn [app] in Heq. exists l1, load, l2. split_and!; try done.
  { by rewrite Heq. }
  assert ((min_from best rest, load) ∈ best :: rest) as Hin.
  { rewrite Heq. apply elem_of_app. right. apply elem_of_cons. by left. }
  apply (elem_of_probes _ _ _ _ E) in Hin
    as [[]%elem_of_nil|(c & data & Hc & -> & ? & ?)].
  by exists data.
Qed.

Lemma choose_peer_first_least_witness :
  let busy := ("10.0.0.1", 4000%Z) in
  let idle := ("10.0.0.2", 4000%Z) in
  let peers := [(busy, Receives "PPS_PPONG 7"); (("10.0.0.3", 4000%Z), Fails);
                (idle, Receives "PPS_PPONG 3"); (busy, Receives "PPS_PPONG 3")] in
  ∃ l1 load l2,
    foldl probe_step (Returns []) peers = Returns (l1 ++ (busy, load) :: l2)
    ∧ (∀ x, x ∈ l1 → (load <? x.2)%string = true)
    ∧ (∀ x, x ∈ l2 → String.le load x.2)
    ∧ ∃ data, (busy, Receives data) ∈ peers ∧ data ≠ ""
              ∧ load = PyStr.drop MSG_TYPE_SIZE data.
Proof.
  apply (choose_peer_first_least
           [(("10.0.0.1", 4000%Z), Receives "PPS_PPONG 7");
            (("10.0.0.3", 4000%Z), Fails);
            (("10.0.0.2", 4000%Z), Receives "PPS_PPONG 3");
            (("10.0.0.1", 4000%Z), Receives "PPS_PPONG 3")]).
  reflexivity.
Defined.

(** *** The command line: [parse_args] *)

Inductive command :=
| Download (file_name : string)
| Upload (file_path : string)
| List
| Seed (port : Z).

(** What [parse_args] does with [sys.argv[1:]]: it returns the user and
    the command, or prints a message and the help and exits, or indexes
    the arguments out of range. *)
Inductive parsed :=
| Parsed (user_identification : string) (cmd : command)
| Rejected (status : nat) (message : string)
| IndexError.

Section ParseArgs.

(** [os.path.exists] and [is_port_available], which ask the system. *)
Variable path_exists : string → bool.
Variable is_port_available : Z → bool.

(** [x in l] for strings. *)
Definition str_in (x : string) (l : list string) : bool :=
  existsb (String.eqb x) l.

Definition is_digit (c : ascii) : bool :=
  let n := nat_of_ascii c in (48 <=? n)%nat && (n <=? 57)%nat.

(** [s.isnumeric()] and [int(s)] on ASCII text. *)
Definition isnumeric (s : string) : bool :=
  negb (s =? "")%string && forallb is_digit (list_ascii_of_string s).

Definition int (s : string) : Z :=
  default 0%Z (Z.of_uint <$> NilEmpty.uint_of_string s).

Definition parse_args (args : list string) : parsed :=
  match args with
  | [] => Rejected 1 "User identification expected."
  | [_] => Rejected 1 "Command expected."
  | user_identification :: cmd :: _ =>
      let n := length args in
      if str_in cmd ["upload"; "download"] && negb (n =? 3)%nat then
        Rejected 1 ("Expected 1 argument(s) but found "
                    +:+ PyStr.of_nat (n - 2) +:+ ".")
      else if str_in cmd ["seed"] && negb (n =? 1)%nat && negb (n =? 2)%nat
      then
        Rejected 1 ("Expected at least 0 argument(s) and at most 1 "
                    +:+ "argument(s) but found "
                    +:+ PyStr.of_nat (n - 2) +:+ ".")
      else if str_in cmd ["list"] && negb (n =? 2)%nat then
        Rejected 1 ("Expected 0 argument(s) but found "
                    +:+ PyStr.of_nat (n - 2) +:+ ".")
      else if (cmd =? "download")%string then
        match args !! 2 with
        | Some file_name => Parsed user_identification (Download file_name)
        | None => IndexError
        end
      else if (cmd =? "upload")%string then
        match args !! 2 with
        | Some file_path =>
            if path_exists file_path
            then Parsed user_identification (Upload file_path)
            else Rejected 1 ("Invalid path to file: '" +:+ file_path +:+ "'")
        | None => IndexError
        end
      else if (cmd =? "list")%string then Parsed user_identification List
      else if (cmd =? "seed")%string then
        if (n <=? 3)%nat then Parsed user_identification (Seed 0) else
        match args !! 3 with
        | Some port =>
            if negb (isnumeric port) then Rejected 1 "Invalid port."
            else if negb (is_port_available (int port))
            then Rejected 1 "Port already in use."
            else Parsed user_identification (Seed (int port))
        | None => IndexError
        end
      else Rejected 1 ("Invalid '" +:+ cmd +:+ "' command.")
  end.

(** Splits the disjunctions, conjunctions and existentials among the
    hypotheses. *)
Ltac break_hyps :=
  repeat match goal with
         | H : _ ∨ _ |- _ => destruct H
         | H : _ ∧ _ |- _ => destruct H
         | H : ∃ _, _ |- _ => destruct H
         end.

(** X9. The command lines [parse_args] accepts are exactly these:
    [id download name], [id upload path] with a path that exists,
    [id list], and [id seed] on its own, which is given port 0.  A port on
    the command line is never accepted: [id seed port] is rejected by the
    count of the arguments.  Every other command line is rejected with
    status 1, and no index is ever out of range. *)
Theorem parse_args_accepts (args : list string) :
  (∀ user cmd,
     parse_args args = Parsed user cmd
     ↔ (∃ file_name, args = [user; "download"; file_name]
                     ∧ cmd = Download file_name)
       ∨ (∃ file_path, args = [user; "upload"; file_path]
                       ∧ path_exists file_path = true
                       ∧ cmd = Upload file_path)
       ∨ (args = [user; "list"] ∧ cmd = List)
       ∨ (args = [user; "seed"] ∧ cmd = Seed 0))
  ∧ (∀ status message,
       parse_args args = Rejected status message → status = 1)
  ∧ parse_args args ≠ IndexError.
Proof.
  assert (Hrej : ∀ status message,
            (∀ user cmd,
               ¬ ((∃ file_name, args = [user; "download"; file_name]
                                ∧ cmd = Download file_name)
                  ∨ (∃ file_path, args = [user; "upload"; file_path]
                                  ∧ path_exists file_path = true
                                  ∧ cmd = Upload file_path)
                  ∨ (args = [user; "list"] ∧ cmd = List)
                  ∨ (args = [user; "seed"] ∧ cmd = Seed 0))) →
            status = 1 →
            parse_args args = Rejected status message →
            (∀ user cmd,
               parse_args args = Parsed user cmd
               ↔ (∃ file_name, args = [user; "download"; file_name]
                               ∧ cmd = Download file_name)
                 ∨ (∃ file_path, args = [user; "upload"; file_path]
                                 ∧ path_exists file_path = true
                                 ∧ cmd = Upload file_path)
                 ∨ (args = [user; "list"] ∧ cmd = List)
                 ∨ (args = [user; "seed"] ∧ cmd = Seed 0))
            ∧ (∀ status message,
                 parse_args args = Rejected status message → status = 1)
            ∧ parse_args args ≠ IndexError).
  { intros status message Hno -> ->. split_and!; [|by intros ?? [= <- _]|done].
    intros u c. split; [done|]. intros H. by destruct (Hno u c). }
  destruct args as [|user [|cmd rest]].
  { eapply Hrej; [|done..]. intros u c H. break_hyps; simplify_eq. }
  { eapply Hrej; [|done..]. intros u c H. break_hyps; simplify_eq. }
  clear Hrej.
  unfold parse_args, str_in, existsb. cbn [length].
  destruct (String.eqb_spec cmd "upload") as [->|Hup];
    [|destruct (String.eqb_spec cmd "download") as [->|Hdown];
      [|destruct (String.eqb_spec cmd "seed") as [->|Hseed];
        [|destruct (String.eqb_spec cmd "list") as [->|Hlist]]]];
    cbn [orb andb negb String.eqb Ascii.eqb Bool.eqb].
  1: destruct rest as [|file_path [|x rest]]; cbn;
       [|destruct (path_exists file_path) eqn:Hex|].
  5: destruct rest as [|file_name [|x rest]]; cbn.
  8: destruct rest as [|x rest]; cbn.
  10: destruct rest as [|x rest]; cbn.
  all: split_and!; [|by intros ?? [= <- _]|done].
  all: intros u c; split;
    [|intros H; break_hyps; simplify_eq; first [done|congruence]].
  all: try done.
  - intros [= <- <-]. right. left. by exists file_path.
  - intros [= <- <-]. left. by exists file_name.
  - intros [= <- <-]. by repeat right.
  - intros [= <- <-]. right. right. by left.
Qed.

End ParseArgs.

Example parse_args_seed_port :
  parse_args (λ _, true) (λ _, true) ["alice"; "seed"; "5000"]
  = Rejected 1 ("Expected at least 0 argument(s) and at most 1 "
                +:+ "argument(s) but found 1.")
  ∧ parse_args (λ _, true) (λ _, true) ["alice"; "seed"]
    = Parsed "alice" (Seed 0).
Proof. split; reflexivity. Qed.

(** *** More on chunking *)

(** X10. The number of chunks a file is split into is the length of the
    file divided by [CHUNK_SIZE], rounded up: the empty file has no chunk,
    and no chunk is empty. *)
Theorem chunk_file_count CHUNK_SIZE (contents : bytes) chunks :
  0 < CHUNK_SIZE →
  chunk_file CHUNK_SIZE contents = Some chunks →
  length chunks = (length contents + CHUNK_SIZE - 1) / CHUNK_SIZE
  ∧ Forall (λ c : bytes, c ≠ []) chunks.
Proof.
  intros Hn Hcf.
  pose proof (chunk_file_chunking _ _ _ Hn Hcf) as Hch.
  pose proof (chunking_length _ _ _ Hn Hch) as Hlow.
  destruct Hch as (Hall & _ & Hcat). split.
  - assert (length contents ≤ length chunks * CHUNK_SIZE) as Hup.
    { rewrite <- Hcat. apply length_concat_le.
      eapply Forall_impl; [done|]. cbn. lia. }
    apply (Nat.div_unique _ _ _
             (length contents + CHUNK_SIZE - 1 - CHUNK_SIZE * length chunks));
      lia.
  - eapply Forall_impl; [done|]. intros c [? _] ->. cbn in *. lia.
Qed.

Lemma chunk_file_count_witness :
  length (String.list_byte_of_string <$> ["hello"; ", wor"; "ld"])
  = (length (String.list_byte_of_string "hello, world") + 5 - 1) / 5
  ∧ Forall (λ c : bytes, c ≠ [])
      (String.list_byte_of_string <$> ["hello"; ", wor"; "ld"]).
Proof.
  apply (chunk_file_count 5 (String.list_byte_of_string "hello, world"));
    [lia|reflexivity].
Defined.

(** *** More on [download_file] *)

(** The session [download_file] starts the workers in. *)
Definition first_session (MAX_THREADS_COUNT : nat)
    (plan : list (string * fetch)) (d : disk) : session :=
  {| file_chunks := new_file_chunks plan.*1; files_on_disk := d;
     slots := MAX_THREADS_COUNT; stuck := false |}.

Lemma download_file_run MAX_THREADS_COUNT plan d :
  plan ≠ [] →
  let r := dispatch plan (first_session MAX_THREADS_COUNT plan d) in
  download_file MAX_THREADS_COUNT plan d
  = if stuck r.2 then (Hang, files_on_disk r.2) else
    match r.1 with
    | Some message => (Exit 0 message, files_on_disk r.2)
    | None =>
        if existsb missing (PyDict.values (file_chunks r.2)) then
          (Exit 1 "Missing some chunks, download incomplete",
           files_on_disk r.2)
        else
          let w := write_chunks (file_chunks r.2)
                     (download (files_on_disk r.2)) in
          (w.1, {| chunk_files := chunk_files (files_on_disk r.2);
                   download := w.2 |})
    end.
Proof. destruct plan as [|[h f] plan]; [done|]. reflexivity. Qed.

(** [chunks/] is missing. *)
Definition no_chunks (dir : chunk_dir) : bool :=
  match dir with
  | NoChunks => true
  | _ => false
  end.



(** Every chunk hash of the plan gets a worker. *)
Definition all_workers (plan : list (string * fetch)) : Prop :=
  ∀ h f, (h, f) ∈ plan → ∃ data, f = Worker data.

Lemma keys_handle_chunk chunk_hash data s :
  PyDict.keys (file_chunks (handle_chunk chunk_hash data s))
  = PyDict.keys (file_chunks s).
Proof.
  unfold handle_chunk. destruct (slots s); [done|].
  destruct data; [|done]. case_decide; [|done].
  cbn [file_chunks]. by rewrite PyDict.keys_set, decide_True.
Qed.

Lemma stuck_sticky plan s :
  stuck s = true → stuck (dispatch plan s).2 = true.
Proof.
  revert s. induction plan as [|[h f] plan IH]; intros s Hs; [done|].
  destruct f; cbn [dispatch]; try done. apply IH.
  unfold handle_chunk. destruct (slots s); [done|].
  destruct data; [|done]. by case_decide.
Qed.









Lemma dispatch_dead hs rest s :
  slots s = length hs →
  dispatch (((λ h, (h, Worker None)) <$> hs) ++ rest) s
  = dispatch rest {| file_chunks := file_chunks s;
                     files_on_disk := files_on_disk s;
                     slots := 0; stuck := stuck s |}.
Proof.
  revert s. induction hs as [|h hs IH]; intros s Hslots.
  - cbn in *. destruct s. cbn in Hslots. by subst.
  - cbn [fmap list_fmap app dispatch]. cbn [length] in Hslots.
    rewrite IH; unfold handle_chunk; by rewrite Hslots.
Qed.

(** X12. A worker that dies keeps its slot of the semaphore, so after
    [MAX_THREADS_COUNT] workers have died the next worker blocks in
    [acquire] for ever: the download neither finishes nor fails, and the
    download file is not written. *)
Theorem download_hangs_after_dead_workers MAX_THREADS_COUNT
    (hs : list string) h data rest d :
  length hs = MAX_THREADS_COUNT →
  let plan := ((λ h, (h, Worker None)) <$> hs) ++ (h, Worker data) :: rest in
  let r := download_file MAX_THREADS_COUNT plan d in
  r.1 = Hang ∧ download r.2 = download d.
Proof.
  intros Hlen plan r. unfold r.
  rewrite download_file_run by (unfold plan; by destruct hs).
  cbv zeta.
  assert (stuck (dispatch plan (first_session MAX_THREADS_COUNT plan d)).2
          = true) as ->.
  { unfold plan at 1. rewrite dispatch_dead by done.
    cbn [dispatch]. apply stuck_sticky. reflexivity. }
  split; [done|]. apply dispatch_download.
Qed.

Lemma download_hangs_after_dead_workers_witness :
  let plan := [("h1", Worker None); ("h2", Worker None);
               ("h3", Worker (Some (bytes_of "three")))] in
  let d := {| chunk_files := UserDir ∅; download := None |} in
  let r := download_file 2 plan d in
  r.1 = Hang ∧ download r.2 = download d.
Proof.
  apply (download_hangs_after_dead_workers 2 ["h1"; "h2"] "h3"
           (Some (bytes_of "three")) []
           {| chunk_files := UserDir ∅; download := None |}).
  reflexivity.
Defined.



(** Without [chunks/] every worker takes a slot away, with or without
    its chunk, so a worker blocks when there are more workers than
    slots. *)
Lemma dispatch_no_chunks plan s :
  chunk_files (files_on_disk s) = NoChunks → all_workers plan →
  (∀ h f, (h, f) ∈ plan → h ∈ PyDict.keys (file_chunks s)) →
  slots s < length plan →
  stuck (dispatch plan s).2 = true.
Proof.
  revert s. induction plan as [|[h0 f0] plan IH]; intros s Hdir Hall Hkeys Hlen.
  { cbn in Hlen. lia. }
  destruct (Hall h0 f0) as [data ->]; [apply elem_of_cons; by left|].
  cbn [dispatch]. destruct (slots s) as [|n] eqn:Hslots.
  { apply stuck_sticky. unfold handle_chunk. by rewrite Hslots. }
  assert (h0 ∈ PyDict.keys (file_chunks s)) as Hin
    by (apply (Hkeys h0 (Worker data)), list_elem_of_here).
  apply IH.
  - unfold handle_chunk. rewrite Hslots. destruct data; [|done].
    rewrite decide_True by done. cbn [files_on_disk chunk_files].
    by rewrite Hdir.
  - intros h' f ?. apply (Hall h' f). apply elem_of_cons. by right.
  - intros h' f ?. rewrite keys_handle_chunk.
    apply (Hkeys h' f). apply elem_of_cons. by right.
  - unfold handle_chunk. rewrite Hslots. cbn [length] in Hlen.
    destruct data; [|cbn; lia].
    rewrite decide_True by done. cbn [files_on_disk chunk_files slots].
    rewrite Hdir. cbn. lia.
Qed.

(** X26. The [download] command does not make [chunks/].  Without it
    the worker of a chunk records the chunk it receives and then dies in
    [os.mkdir] with its slot of the semaphore, as the workers that get no
    data do: when the chunk hashes of the file, each of which gets a
    worker, are more than [MAX_THREADS_COUNT], a worker blocks in
    [acquire] for ever, and the download file is not written. *)
Theorem download_without_chunks_dir MAX_THREADS_COUNT plan d :
  chunk_files d = NoChunks → all_workers plan →
  MAX_THREADS_COUNT < length plan →
  let r := download_file MAX_THREADS_COUNT plan d in
  r.1 = Hang ∧ download r.2 = download d.
Proof.
  intros Hdir Hall Hlen r. unfold r.
  rewrite download_file_run by (destruct plan; [cbn in Hlen; lia|done]).
  cbv zeta. rewrite dispatch_no_chunks; [|done|done| |done].
  - split; [done|]. apply dispatch_download.
  - intros h f ?. cbn [first_session file_chunks]. unfold new_file_chunks.
    rewrite PyDict.keys_foldl_set, PyDict.elem_of_add_keys. right.
    apply list_elem_of_fmap. by exists (h, f).
Qed.

Lemma download_without_chunks_dir_witness :
  let plan := [("h1", Worker (Some (bytes_of "one")));
               ("h2", Worker (Some (bytes_of "two")));
               ("h3", Worker (Some (bytes_of "three")))] in
  let d := {| chunk_files := NoChunks; download := None |} in
  let r := download_file 2 plan d in
  r.1 = Hang ∧ download r.2 = download d.
Proof.
  apply (download_without_chunks_dir 2
           [("h1", Worker (Some (bytes_of "one")));
            ("h2", Worker (Some (bytes_of "two")));
            ("h3", Worker (Some (bytes_of "three")))]
           {| chunk_files := NoChunks; download := None |}).
  - reflexivity.
  - intros h f Hin. rewrite !elem_of_cons in Hin.
    destruct Hin as [[= _ ->]|[[= _ ->]|[[= _ ->]|[]%elem_of_nil]]];
      by eexists.
  - simpl. lia.
Defined.

(** *** The local chunk store: [save_chunks] *)

(** [save_chunks] writes each chunk to the file named by its hash.  The
    loop also appends each hash to the list [chunks] it iterates over:
    without chunks it does not run; with chunks it runs once for every
    hash, and with fewer chunks than hashes it goes on to the appended
    hashes and raises on writing a [str], which is the result [None]. *)
Definition save_chunks (chunks : list bytes) (chunk_hashes : list string)
    (chunks_dir : gmap string bytes) : option (gmap string bytes) :=
  match chunks with
  | [] => Some chunks_dir
  | _ =>
      if (length chunks <? length chunk_hashes)%nat then None else
      Some (foldl (λ dir item, <[item.2 := item.1]> dir) chunks_dir
              (zip chunks chunk_hashes))
  end.

Lemma save_chunks_hashes (chunks : list bytes) (dir : gmap string bytes) :
  save_chunks chunks (hash_chunks chunks) dir
  = Some (foldl (λ dir item, <[item.2 := item.1]> dir) dir
            (zip chunks (hash_chunks chunks))).
Proof.
  unfold save_chunks. destruct chunks as [|c cs]; [done|].
  assert ((length (c :: cs) <? length (hash_chunks (c :: cs)))%nat = false)
    as ->; [|done].
  apply Nat.ltb_ge. unfold hash_chunks. by rewrite length_fmap.
Qed.

Lemma save_chunks_fold (chunks : list bytes) (dir : gmap string bytes) h :
  let dir' := foldl (λ dir item, <[item.2 := item.1]> dir) dir
                (zip chunks (hash_chunks chunks)) in
  (h ∉ hash_chunks chunks → dir' !! h = dir !! h)
  ∧ (h ∈ hash_chunks chunks →
     ∃ c, dir' !! h = Some c ∧ c ∈ chunks ∧ Sha1.hexdigest c = h)
  ∧ (∀ c, NoDup (hash_chunks chunks) → c ∈ chunks → h = Sha1.hexdigest c →
          dir' !! h = Some c).
Proof.
  revert dir. induction chunks as [|c0 cs IH]; intros dir.
  { cbn. split_and!; [done|by intros ?%elem_of_nil|by intros ? _ ?%elem_of_nil]. }
  cbn [hash_chunks fmap list_fmap zip zip_with foldl fst snd].
  fold (hash_chunks cs).
  destruct (IH (<[Sha1.hexdigest c0 := c0]> dir)) as (H1 & H2 & H3).
  cbv zeta. split_and!.
  - intros [Hne Hnot]%not_elem_of_cons. rewrite H1 by done.
    by rewrite lookup_insert_ne.
  - intros Hin. destruct (decide (h ∈ hash_chunks cs)) as [Hcs|Hcs].
    + destruct (H2 Hcs) as (c & ? & ? & ?). exists c.
      split_and!; [done| |done]. apply elem_of_cons. by right.
    + apply elem_of_cons in Hin as [->|?]; [|done].
      exists c0. rewrite H1 by done. rewrite lookup_insert_eq.
      split_and!; [done| |done]. apply elem_of_cons. by left.
  - intros c [Hc0 Hnd]%NoDup_cons [->|Hc]%elem_of_cons ->.
    + rewrite H1 by done. by rewrite lookup_insert_eq.
    + by apply H3.
Qed.

(** X14. Saving the chunks of a file under their hashes succeeds; it
    leaves every other file of the store as it was, and afterwards the
    file named by the hash of a chunk holds a chunk of the file with that
    digest, which is the chunk itself when the hashes are distinct. *)
Theorem save_chunks_content_addressed (chunks : list bytes)
    (chunks_dir : gmap string bytes) :
  ∃ dir',
    save_chunks chunks (hash_chunks chunks) chunks_dir = Some dir'
    ∧ (∀ h, h ∉ hash_chunks chunks → dir' !! h = chunks_dir !! h)
    ∧ (∀ c, c ∈ chunks →
         ∃ c', dir' !! Sha1.hexdigest c = Some c' ∧ c' ∈ chunks
               ∧ Sha1.hexdigest c' = Sha1.hexdigest c)
    ∧ (NoDup (hash_chunks chunks) →
       ∀ c, c ∈ chunks → dir' !! Sha1.hexdigest c = Some c).
Proof.
  rewrite save_chunks_hashes.
  eexists. split_and!; [done|..].
  - intros h Hh. by apply save_chunks_fold.
  - intros c Hc. apply save_chunks_fold.
    apply list_elem_of_fmap. by exists c.
  - intros Hnd c Hc. by apply save_chunks_fold.
Qed.

(** *** Fetching a chunk: [send_ppq_msg] against [handle_peer] *)

#[global] Instance byte_eq_dec : EqDecision Byte.byte := Byte.byte_eq_dec.





(** *** The permits of a seeder *)









(** *** A download over an earlier one *)

(** X22. The download file is opened for appending and never emptied.
    When a file of distinct chunks is downloaded from seeders that serve
    its chunks, with [chunks/] in place or with a slot for every chunk,
    while a download file of that name already exists, the download ends
    normally and the file holds the old bytes followed by the chunks: a
    second download of the same file leaves its contents twice. *)
Theorem download_appends MAX_THREADS_COUNT (chunks : list bytes) (d : disk)
    (old : bytes) :
  0 < MAX_THREADS_COUNT → 0 < length chunks →
  (no_chunks (chunk_files d) = true → length chunks ≤ MAX_THREADS_COUNT) →
  NoDup (hash_chunks chunks) → download d = Some old →
  let r := download_file MAX_THREADS_COUNT (honest_plan chunks) d in
  r.1 = Finished ∧ download r.2 = Some (old ++ concat chunks).
Proof.
  intros Hmax Hne Hroot Hnd Hold r. unfold r.
  rewrite download_file_run by (destruct chunks; [cbn in Hne; lia|done]).
  cbv zeta. unfold first_session. rewrite honest_plan_hashes.
  destruct (dispatch_honest chunks
              {| file_chunks := new_file_chunks (hash_chunks chunks);
                 files_on_disk := d; slots := MAX_THREADS_COUNT;
                 stuck := false |})
    as (-> & Hrec & ->); [done| |].
  { cbn [files_on_disk slots]. by destruct (chunk_files d); auto. }
  rewrite Hrec, dispatch_download. cbn [file_chunks files_on_disk].
  rewrite record_all_NoDup by done.
  assert (∀ kv : string * option bytes,
            kv ∈ (λ c, (Sha1.hexdigest c, Some c)) <$> chunks →
            ∃ c, kv.2 = Some c ∧ kv.1 = Sha1.hexdigest c) as Hok.
  { intros kv (c & -> & _)%list_elem_of_fmap. by exists c. }
  rewrite no_missing, Hold, write_chunks_verified; [|done|].
  - cbn [fst snd download]. split; [done|]. do 2 f_equal.
    unfold parts. rewrite <- list_fmap_compose. f_equal.
    apply list_fmap_id.
  - intros kv Hkv. destruct (Hok kv Hkv) as (c & ? & _). by exists c.
Qed.

Lemma download_appends_witness :
  let r := download_file 4 (honest_plan [bytes_of "ab"; bytes_of "cd"])
             {| chunk_files := NoUserDir;
                download := Some (bytes_of "abcd") |} in
  r.1 = Finished
  ∧ download r.2
    = Some (bytes_of "abcd" ++ concat [bytes_of "ab"; bytes_of "cd"]).
Proof.
  apply (download_appends 4 [bytes_of "ab"; bytes_of "cd"]
           {| chunk_files := NoUserDir; download := Some (bytes_of "abcd") |}
           (bytes_of "abcd")).
  - lia.
  - simpl. lia.
  - simpl. lia.
  - vm_compute. repeat constructor; set_solver.
  - reflexivity.
Defined.

End Peer.


(** ** The peer against the tracker

    The requests of [peer.py] served by the loop of [server.py]: a
    message is read by one [recv] of at most [MSG_TYPE_SIZE + CHUNK_SIZE]
    bytes on either side. *)

Module Network.

(** *** Facts on strings and decimal numbers *)

Lemma length_append (a b : string) :
  String.length (a +:+ b) = String.length a + String.length b.
Proof.
  induction a as [|c a IH]; [done|].
  rewrite PyStr.append_cons. cbn [String.length]. by rewrite IH.
Qed.

Lemma take_all (n : nat) (s : string) :
  String.length s ≤ n → PyStr.take n s = s.
Proof.
  revert n. induction s as [|c s IH]; intros [|n] Hn; try done.
  - cbn in Hn. lia.
  - cbn [PyStr.take]. rewrite IH; [done|]. cbn in Hn. lia.
Qed.

Lemma string_of_uint_length (d : Decimal.uint) :
  String.length (NilEmpty.string_of_uint d) = Decimal.nb_digits d.
Proof. induction d; cbn; by rewrite ?IHd. Qed.

Lemma nb_digits_succ (d : Decimal.uint) :
  Decimal.nb_digits (Decimal.Little.succ d) ≤ S (Decimal.nb_digits d).
Proof. induction d; cbn; lia. Qed.

Lemma of_nat_length (n : nat) : String.length (PyStr.of_nat n) ≤ S n.
Proof.
  unfold PyStr.of_nat.
  rewrite string_of_uint_length, DecimalNat.Unsigned.to_uint_alt,
    DecimalFacts.nb_digits_rev.
  induction n as [|n IH]; [done|].
  cbn [DecimalNat.Unsigned.to_lu].
  pose proof (nb_digits_succ (DecimalNat.Unsigned.to_lu n)). lia.
Qed.

(** [int(s)] for a decimal numeral; [None] is the [ValueError]. *)
Definition int_of (s : string) : option nat :=
  if (s =? "")%string then None
  else Nat.of_uint <$> NilEmpty.uint_of_string s.

Lemma int_of_nat (n : nat) : int_of (PyStr.of_nat n) = Some n.
Proof.
  unfold int_of, PyStr.of_nat.
  rewrite NilEmpty.usu. cbn [fmap option_fmap option_map].
  rewrite DecimalNat.Unsigned.of_to.
  destruct (NilEmpty.string_of_uint (Nat.to_uint n)) eqn:E; [|done].
  exfalso. apply (f_equal String.length) in E.
  rewrite string_of_uint_length in E. cbn in E.
  apply DecimalFacts.nb_digits_0 in E.
  pose proof (f_equal Nat.of_uint E) as E0.
  rewrite DecimalNat.Unsigned.of_to in E0. cbn in E0. subst n.
  discriminate E.
Qed.

Lemma length_join_ge (ws : list string) :
  Forall (λ w, PyStr.is_word w = true) ws →
  length ws ≤ String.length (PyStr.join " " ws).
Proof.
  induction 1 as [|w ws Hw Hws IH]; [done|].
  assert (1 ≤ String.length w).
  { destruct w; [done|]. cbn. lia. }
  destruct ws as [|w2 ws]; [cbn; lia|].
  change (PyStr.join " " (w :: w2 :: ws))
    with (w +:+ " " +:+ PyStr.join " " (w2 :: ws)).
  rewrite !length_append. cbn [length] in *. lia.
Qed.

Lemma split_cons_word (w rest : string) :
  PyStr.is_word w = true →
  PyStr.split (w +:+ " " +:+ rest) = w :: PyStr.split rest.
Proof.
  intros [Hne%negb_true_iff%String.eqb_neq Hns]%andb_true_iff.
  unfold PyStr.split. rewrite PyStr.split_go_word by done.
  cbn [default]. change (" " +:+ rest) with (String " " rest).
  cbn [PyStr.split_go]. by change (PyStr.is_space " ") with true.
Qed.

Lemma split_named (w : string) (ws : list string) :
  PyStr.is_word w = true → Forall (λ w, PyStr.is_word w = true) ws →
  PyStr.split (w +:+ " " +:+ PyStr.join " " ws) = w :: ws.
Proof.
  intros Hw Hws. rewrite split_cons_word by done.
  by rewrite PyStr.split_join.
Qed.

Lemma hash_chunks_words (chunks : list Peer.bytes) :
  Forall (λ w, PyStr.is_word w = true) (Peer.hash_chunks chunks).
Proof.
  unfold Peer.hash_chunks. apply Forall_fmap, Forall_forall.
  intros c _. apply Sha1.hexdigest_word.
Qed.

Lemma of_nat_no_space (n : nat) : PyStr.no_space (PyStr.of_nat n) = true.
Proof.
  unfold PyStr.of_nat. generalize (Nat.to_uint n). intros d.
  induction d as [|d IH|d IH|d IH|d IH|d IH|d IH|d IH|d IH|d IH|d IH];
    [done|..]; cbn [NilEmpty.string_of_uint PyStr.no_space]; by rewrite IH.
Qed.

Lemma of_nat_word (n : nat) : PyStr.is_word (PyStr.of_nat n) = true.
Proof.
  unfold PyStr.is_word. rewrite of_nat_no_space, andb_true_r.
  apply negb_true_iff, String.eqb_neq. intros Hnil.
  pose proof (int_of_nat n) as Hint. unfold int_of in Hint.
  by rewrite Hnil in Hint.
Qed.

Lemma is_word_append (a b : string) :
  PyStr.is_word a = true → PyStr.no_space b = true →
  PyStr.is_word (a +:+ b) = true.
Proof.
  intros [Hne Hns]%andb_true_iff Hb. unfold PyStr.is_word.
  rewrite Sha1.no_space_append, Hns, Hb, andb_true_r.
  destruct a; [done|]. by rewrite PyStr.append_cons.
Qed.

(** *** Requests to the tracker: [send_csq_msg] *)

(** The tracker process: [None] once its loop has ended. *)
Definition tracker : Type := option Tracker.registry.

(** What [send_csq_msg] does: it returns the payload of the reply, or
    it prints a message and exits. *)
Inductive answer :=
| Payload (data : string)
| Quit (status : nat) (message : string).

Section Requests.

(** [config.CHUNK_SIZE], which is not part of the sources. *)
Variable CHUNK_SIZE : nat.

(** The size of the one [recv] of either side. *)
Definition BUFFER : nat := Tracker.MSG_TYPE_SIZE + CHUNK_SIZE.

(** [send_csq_msg] against the loop of the tracker.  A tracker whose
    loop ends on the message closes the connection without a reply, and
    [recv] returns no bytes. *)
Definition send_csq_msg (t : tracker) (msg : string) : tracker * answer :=
  match t with
  | None =>
      (None, Quit 1 "Could not connect to server - make sure it's running")
  | Some st =>
      match Tracker.handle_request st (PyStr.take BUFFER msg) with
      | None => (None, Payload "")
      | Some (st', reply) =>
          let data := PyStr.take BUFFER reply in
          if (PyStr.take Tracker.MSG_TYPE_SIZE data =? "CSS_ERROR ")%string
          then (Some st', Quit 5 (PyStr.drop Tracker.MSG_TYPE_SIZE data))
          else (Some st', Payload (PyStr.drop Tracker.MSG_TYPE_SIZE data))
      end
  end.

(** *** [upload_file] *)

(** How [upload_file] ends. *)
Inductive uploaded :=
| Completed                                 (** "Upload completed." *)
| Stopped (status : nat) (message : string) (** [sys.exit] after a message *)
| ValueError                                (** [int(ok)] raises *)
| TypeError.                                (** [save_chunks] raises *)

(** [upload_file] for the file named [file_name], the last component of
    the path, with the bytes [contents]. *)
Definition upload_file (file_name : string) (contents : Peer.bytes)
    (t : tracker) (chunks_dir : gmap string Peer.bytes)
    : uploaded * tracker * gmap string Peer.bytes :=
  let chunks := default [] (Peer.chunk_file CHUNK_SIZE contents) in
  let chunk_hashes := Peer.hash_chunks chunks in
  let r := send_csq_msg t ("CSQ_REGFI " +:+ file_name +:+ " "
                           +:+ PyStr.join " " chunk_hashes) in
  match r.2 with
  | Quit status message => (Stopped status message, r.1, chunks_dir)
  | Payload ok =>
      match Peer.save_chunks chunks chunk_hashes chunks_dir with
      | None => (TypeError, r.1, chunks_dir)
      | Some dir' =>
          match int_of ok with
          | None => (ValueError, r.1, dir')
          | Some n =>
              if (n =? length chunk_hashes)%nat then (Completed, r.1, dir')
              else (Stopped 1 "Failed uploading file. Upload incomplete.",
                    r.1, dir')
          end
      end
  end.

(** A request that fits the buffer and is answered without an error is
    answered with the payload of the reply, when the reply fits too. *)
Lemma send_csq_msg_fits st msg st' tag payload :
  String.length msg ≤ BUFFER →
  Tracker.handle_request st msg = Some (st', tag +:+ payload) →
  String.length tag = Tracker.MSG_TYPE_SIZE →
  tag ≠ "CSS_ERROR " →
  String.length payload ≤ CHUNK_SIZE →
  send_csq_msg (Some st) msg = (Some st', Payload payload).
Proof.
  intros Hmsg Hreq Htag Hne Hpay. unfold send_csq_msg.
  rewrite (take_all _ _ Hmsg), Hreq. cbv zeta.
  rewrite (take_all BUFFER (tag +:+ payload))
    by (rewrite length_append; unfold BUFFER; lia).
  assert (PyStr.take Tracker.MSG_TYPE_SIZE (tag +:+ payload) = tag
          ∧ PyStr.drop Tracker.MSG_TYPE_SIZE (tag +:+ payload) = payload)
    as [-> ->].
  { clear -Htag. revert Htag. generalize Tracker.MSG_TYPE_SIZE.
    induction tag as [|c tag IH]; intros [|n] Hn; try done.
    rewrite PyStr.append_cons. cbn [PyStr.take PyStr.drop].
    destruct (IH n) as [-> ->]; [by injection Hn|done]. }
  by apply String.eqb_neq in Hne as ->.
Qed.

Lemma is_word_length (w : string) :
  PyStr.is_word w = true → 1 ≤ String.length w.
Proof. destruct w; [done|]. cbn. lia. Qed.

(** X16. Uploading a file whose name is a word, when the REGFI message
    fits the buffer of the tracker: the upload completes; the tracker
    records the chunk hashes of the file under its name, each with an
    empty seeder set; the chunks are in the local store under their
    hashes; and the chunk hashes a peer then reads from the GETFI reply
    for the name are those of the file, in order. *)
Theorem upload_then_getfi file_name (contents : Peer.bytes) chunks st
    (chunks_dir : gmap string Peer.bytes) :
  PyStr.is_word file_name = true →
  Peer.chunk_file CHUNK_SIZE contents = Some chunks →
  String.length ("CSQ_REGFI " +:+ file_name +:+ " "
                 +:+ PyStr.join " " (Peer.hash_chunks chunks)) ≤ BUFFER →
  ∃ st' dir',
    upload_file file_name contents (Some st) chunks_dir
    = (Completed, Some st', dir')
    ∧ PyDict.get (Tracker.files st') file_name
      = Some (Peer.hash_chunks chunks)
    ∧ (∀ c, c ∈ chunks →
         Tracker.chunks st' !! Sha1.hexdigest c = Some ∅
         ∧ ∃ c', dir' !! Sha1.hexdigest c = Some c'
                 ∧ Sha1.hexdigest c' = Sha1.hexdigest c)
    ∧ ∃ reply,
        send_csq_msg (Some st') ("CSQ_GETFI " +:+ file_name)
        = (Some st', Payload reply)
        ∧ PyStr.split reply = Peer.hash_chunks chunks.
Proof.
  intros Hname Hcf Hfit.
  set (hs := Peer.hash_chunks chunks) in *.
  pose proof (hash_chunks_words chunks) as Hwords. fold hs in Hwords.
  pose proof (is_word_length _ Hname) as Hlen.
  pose proof (length_join_ge _ Hwords) as Hjoin.
  pose proof (of_nat_length (length hs)) as Hdigits.
  rewrite !length_append in Hfit. unfold BUFFER in Hfit.
  change (String.length "CSQ_REGFI ") with 10 in Hfit.
  change (String.length " ") with 1 in Hfit.
  change Tracker.MSG_TYPE_SIZE with 10 in Hfit.
  set (st' := Tracker.regfi st file_name hs).
  assert (send_csq_msg (Some st)
            ("CSQ_REGFI " +:+ file_name +:+ " " +:+ PyStr.join " " hs)
          = (Some st', Payload (PyStr.of_nat (length hs)))) as Hsend.
  { apply (send_csq_msg_fits _ _ _ "CSS_REGFI "); try done.
    - rewrite !length_append. unfold BUFFER.
      change (String.length "CSQ_REGFI ") with 10.
      change (String.length " ") with 1.
      change Tracker.MSG_TYPE_SIZE with 10. lia.
    - rewrite Tracker.handle_regfi by reflexivity.
      change (PyStr.drop 10 ("CSQ_REGFI " +:+ ?x)) with x.
      by rewrite split_named.
    - lia. }
  assert (∃ dir', Peer.save_chunks chunks hs chunks_dir = Some dir'
            ∧ ∀ c, c ∈ chunks →
                ∃ c', dir' !! Sha1.hexdigest c = Some c'
                      ∧ Sha1.hexdigest c' = Sha1.hexdigest c)
    as (dir' & Hsave & Hdir).
  { pose proof (Peer.save_chunks_hashes chunks chunks_dir) as Hs.
    fold hs in Hs. rewrite Hs.
    eexists. split; [done|]. intros c Hc.
    destruct (Peer.save_chunks_fold chunks chunks_dir (Sha1.hexdigest c))
      as (_ & Hin & _).
    destruct Hin as (c' & ? & _ & ?).
    { apply list_elem_of_fmap. by exists c. }
    by exists c'. }
  exists st', dir'. split_and!.
  - unfold upload_file. rewrite Hcf. cbv zeta. cbn [default from_option id]. fold hs.
    rewrite Hsend. cbn [fst snd]. rewrite Hsave, int_of_nat.
    by rewrite Nat.eqb_refl.
  - apply PyDict.get_set_eq.
  - intros c Hc. split; [|by apply Hdir].
    unfold st'. cbn [Tracker.regfi Tracker.chunks].
    rewrite Tracker.regfi_chunks_lookup, decide_True; [done|].
    apply list_elem_of_fmap. by exists c.
  - exists (PyStr.join " " hs). split; [|by apply PyStr.split_join].
    apply (send_csq_msg_fits _ _ _ "CSS_GETFI "); try done.
    + rewrite length_append. unfold BUFFER.
      change (String.length "CSQ_GETFI ") with 10.
      change Tracker.MSG_TYPE_SIZE with 10. lia.
    + rewrite Tracker.handle_getfi by reflexivity.
      change (PyStr.drop 10 ("CSQ_GETFI " +:+ ?x)) with x.
      unfold st'. cbn [Tracker.regfi Tracker.files].
      by rewrite PyDict.get_set_eq.
    + lia.
Qed.

(** X17. Uploading a file whose name holds a space between two words:
    the tracker splits the name, records the first word as the file with
    the second word at the head of its chunk hashes, and counts one hash
    more than was sent, so the upload ends with status 1 as incomplete,
    after the registry has been changed and the chunks have been saved. *)
Theorem upload_name_with_space first second (contents : Peer.bytes) chunks st
    (chunks_dir : gmap string Peer.bytes) :
  PyStr.is_word first = true → PyStr.is_word second = true →
  Peer.chunk_file CHUNK_SIZE contents = Some chunks →
  let file_name := first +:+ " " +:+ second in
  String.length ("CSQ_REGFI " +:+ file_name +:+ " "
                 +:+ PyStr.join " " (Peer.hash_chunks chunks)) ≤ BUFFER →
  ∃ st' dir',
    upload_file file_name contents (Some st) chunks_dir
    = (Stopped 1 "Failed uploading file. Upload incomplete.", Some st', dir')
    ∧ PyDict.get (Tracker.files st') first
      = Some (second :: Peer.hash_chunks chunks)
    ∧ Peer.save_chunks chunks (Peer.hash_chunks chunks) chunks_dir
      = Some dir'.
Proof.
  intros Hfirst Hsecond Hcf file_name Hfit.
  set (hs := Peer.hash_chunks chunks) in *.
  pose proof (hash_chunks_words chunks) as Hwords. fold hs in Hwords.
  pose proof (is_word_length _ Hfirst).
  pose proof (is_word_length _ Hsecond).
  pose proof (length_join_ge _ Hwords) as Hjoin.
  pose proof (of_nat_length (S (length hs))) as Hdigits.
  unfold file_name in Hfit. rewrite !length_append in Hfit.
  unfold BUFFER in Hfit.
  change (String.length "CSQ_REGFI ") with 10 in Hfit.
  change (String.length " ") with 1 in Hfit.
  change Tracker.MSG_TYPE_SIZE with 10 in Hfit.
  set (st' := Tracker.regfi st first (second :: hs)).
  assert (send_csq_msg (Some st)
            ("CSQ_REGFI " +:+ file_name +:+ " " +:+ PyStr.join " " hs)
          = (Some st', Payload (PyStr.of_nat (S (length hs))))) as Hsend.
  { apply (send_csq_msg_fits _ _ _ "CSS_REGFI "); try done.
    - unfold file_name. rewrite !length_append. unfold BUFFER.
      change (String.length "CSQ_REGFI ") with 10.
      change (String.length " ") with 1.
      change Tracker.MSG_TYPE_SIZE with 10. lia.
    - rewrite Tracker.handle_regfi by reflexivity.
      change (PyStr.drop 10 ("CSQ_REGFI " +:+ ?x)) with x.
      unfold file_name. rewrite !PyStr.append_assoc.
      rewrite split_cons_word by done. by rewrite split_named.
    - lia. }
  assert (∃ dir', Peer.save_chunks chunks hs chunks_dir = Some dir')
    as (dir' & Hsave).
  { pose proof (Peer.save_chunks_hashes chunks chunks_dir) as Hs.
    fold hs in Hs. rewrite Hs. by eexists. }
  exists st', dir'. split_and!; [|apply PyDict.get_set_eq|done].
  unfold upload_file. rewrite Hcf. cbv zeta. cbn [default from_option id]. fold hs.
  fold file_name. rewrite Hsend. cbn [fst snd]. rewrite Hsave, int_of_nat.
  assert ((S (length hs) =? length hs)%nat = false) as ->; [|done].
  apply Nat.eqb_neq. lia.
Qed.

(** *** Deannouncing stale peers from [download_file] *)

(** [" ".join(data)] for a [str]: its characters, a space between
    them. *)
Fixpoint join_chars (data : string) : string :=
  match data with
  | EmptyString => EmptyString
  | String c EmptyString => String c EmptyString
  | String c data' => String c (String " " (join_chars data'))
  end.

(** [deannounce_peers] *)
Definition deannounce_peers (t : tracker) (peers : string)
    : tracker * answer :=
  send_csq_msg t ("CSQ_URGPR " +:+ peers).

(** What [download_file] sends when no peer of the GETCK reply [data] is
    active: [deannounce_peers(" ".join(data))]. *)
Definition deannounce_stale (t : tracker) (data : string) : tracker * answer :=
  deannounce_peers t (join_chars data).

(** No two characters that are not spaces are next to each other. *)
Fixpoint sparse (s : string) : bool :=
  match s with
  | String a (String b _ as s') =>
      (PyStr.is_space a || PyStr.is_space b) && sparse s'
  | _ => true
  end.

Lemma sparse_join_chars data : sparse (join_chars data) = true.
Proof.
  induction data as [|c data IH]; [done|].
  destruct data as [|c' data']; [done|].
  cbn [join_chars] in *. cbn [sparse].
  change (PyStr.is_space " ") with true.
  rewrite orb_true_r. cbn [andb orb].
  destruct data' as [|c'' data'']; [done|]. by rewrite IH.
Qed.

Lemma sparse_take n s : sparse s = true → sparse (PyStr.take n s) = true.
Proof.
  revert n. induction s as [|a s IH]; intros [|n] Hs; try done.
  destruct s as [|b s']; [by destruct n|]. cbn [PyStr.take].
  destruct n as [|n]; [done|].
  cbn [sparse] in Hs. apply andb_true_iff in Hs as [Hab Hs].
  specialize (IH (S n) Hs). cbn [PyStr.take] in IH.
  cbn [PyStr.take sparse]. rewrite Hab. exact IH.
Qed.

Lemma split_go_sparse tok s t :
  sparse s = true →
  (match tok, s with
   | Some _, String a _ => PyStr.is_space a = true
   | _, _ => True
   end) →
  t ∈ PyStr.split_go tok s →
  Some t = tok ∨ String.length t = 1.
Proof.
  revert tok. induction s as [|a s IH]; intros tok Hs Htok.
  - destruct tok as [t0|]; cbn.
    + intros ->%list_elem_of_singleton. by left.
    + by intros ?%elem_of_nil.
  - assert (sparse s = true) as Hs'.
    { destruct s as [|b s']; [done|]. cbn [sparse] in Hs.
      by apply andb_true_iff in Hs as [_ ?]. }
    cbn [PyStr.split_go]. destruct (PyStr.is_space a) eqn:Ha.
    + destruct tok as [t0|].
      * intros [->|Hin]%elem_of_cons; [by left|].
        destruct (IH None Hs' I Hin) as [[=]|?]. by right.
      * intros Hin. destruct (IH None Hs' I Hin) as [[=]|?]. by right.
    + destruct tok as [t0|]; [done|].
      intros Hin. apply IH in Hin as [[= ->]|?]; [by right|by right|done|].
      destruct s as [|b s']; [done|]. cbn [sparse] in Hs.
      rewrite Ha in Hs. cbn [orb] in Hs.
      by apply andb_true_iff in Hs as [? _].
Qed.

(** X18. The deannouncement [download_file] sends when no candidate of
    a GETCK reply is active lists the characters of the reply, not the
    peer addresses in it: the tracker acknowledges it, and every seeder
    whose address is longer than one character is still a seeder of every
    chunk it was a seeder of. *)
Theorem stale_peers_stay_registered st data h s p :
  Tracker.chunks st !! h = Some s → p ∈ s → String.length p ≠ 1 →
  ∃ st' s',
    deannounce_stale (Some st) data = (Some st', Payload "")
    ∧ Tracker.chunks st' !! h = Some s' ∧ p ∈ s'.
Proof.
  intros Hs Hp Hlen. unfold deannounce_stale, deannounce_peers, send_csq_msg.
  change (PyStr.take BUFFER ("CSQ_URGPR " +:+ join_chars data))
    with ("CSQ_URGPR " +:+ PyStr.take CHUNK_SIZE (join_chars data)).
  rewrite Tracker.handle_urgpr by reflexivity.
  change (PyStr.drop 10 ("CSQ_URGPR " +:+ ?x)) with x.
  cbv zeta.
  assert (PyStr.take BUFFER "CSS_URGPR" = "CSS_URGPR") as ->.
  { apply take_all. unfold BUFFER. cbn. lia. }
  cbn [PyStr.take PyStr.drop Tracker.MSG_TYPE_SIZE String.eqb Ascii.eqb
       Bool.eqb].
  eexists _, _. split_and!; [done| |].
  - cbn [Tracker.chunks]. by rewrite Tracker.urgpr_lookup, Hs.
  - apply elem_of_difference. split; [done|].
    rewrite elem_of_list_to_set. intros Hin.
    apply (split_go_sparse None) in Hin as [[=]|?]; [done| |done].
    apply sparse_take, sparse_join_chars.
Qed.

(** *** Announcing the local chunks: [announce_chunks] *)

(** [announce_chunks]; [listing] is [os.listdir] of the chunk directory
    of the user, [None] when the directory does not exist.  The result is
    the exit of the command, if it exits. *)
Definition announce_chunks (listing : option (list string)) (addr : string)
    (port : nat) (t : tracker) : tracker * option (nat * string) :=
  match listing with
  | None =>
      (t, Some (0, "You dont have any chunks to seed. Try uploading a file."))
  | Some names =>
      let r := send_csq_msg t ("CSQ_REGCK " +:+ addr +:+ ":"
                               +:+ PyStr.of_nat port +:+ " "
                               +:+ PyStr.join " " names) in
      (r.1, match r.2 with
            | Quit status message => Some (status, message)
            | Payload _ => None
            end)
  end.

Lemma announce_chunks_sends names addr port st :
  PyStr.is_word addr = true →
  Forall (λ w, PyStr.is_word w = true) names →
  String.length ("CSQ_REGCK " +:+ addr +:+ ":" +:+ PyStr.of_nat port +:+ " "
                 +:+ PyStr.join " " names) ≤ BUFFER →
  let peer := addr +:+ ":" +:+ PyStr.of_nat port in
  announce_chunks (Some names) addr port (Some st)
  = (Some {| Tracker.files := Tracker.files st;
             Tracker.chunks :=
               (Tracker.regck (Tracker.chunks st) peer names).1 |}, None).
Proof.
  intros Haddr Hnames Hfit peer.
  assert (PyStr.is_word peer = true) as Hpeer.
  { apply is_word_append; [done|].
    rewrite Sha1.no_space_append. by rewrite of_nat_no_space. }
  pose proof (is_word_length _ Hpeer) as Hlen.
  pose proof (length_join_ge _ Hnames) as Hjoin.
  unfold announce_chunks. cbv zeta.
  replace ("CSQ_REGCK " +:+ addr +:+ ":" +:+ PyStr.of_nat port +:+ " "
           +:+ PyStr.join " " names)
    with ("CSQ_REGCK " +:+ peer +:+ " " +:+ PyStr.join " " names) in *
    by (unfold peer; by rewrite !PyStr.append_assoc).
  rewrite !length_append in Hfit. unfold BUFFER in Hfit.
  change (String.length "CSQ_REGCK ") with 10 in Hfit.
  change (String.length " ") with 1 in Hfit.
  change Tracker.MSG_TYPE_SIZE with 10 in Hfit.
  destruct (Tracker.regck_spec peer names (Tracker.chunks st) 0)
    as (_ & _ & Hcount).
  fold (Tracker.regck (Tracker.chunks st) peer names) in Hcount.
  pose proof (length_filter (.∈ dom (Tracker.chunks st)) names) as Hle.
  pose proof (of_nat_length
                (Tracker.regck (Tracker.chunks st) peer names).2) as Hdig.
  erewrite (send_csq_msg_fits _ _ _ "CSS_REGCK "); [done| | |done|done|].
  - rewrite !length_append. unfold BUFFER.
    change (String.length "CSQ_REGCK ") with 10.
    change (String.length " ") with 1.
    change Tracker.MSG_TYPE_SIZE with 10. lia.
  - rewrite Tracker.handle_regck by reflexivity.
    change (PyStr.drop 10 ("CSQ_REGCK " +:+ ?x)) with x.
    by rewrite split_named.
  - lia.
Qed.

(** X19. Announcing the chunk directory, when the address is a word,
    the file names are words and the REGCK message fits the buffer of the
    tracker: the command goes on, the peer, named [addr:port], is a seeder
    of every chunk of the directory that the tracker knows, and no other
    seeder set and no file changes.  Without a chunk directory nothing is
    sent and the command exits with status 0. *)
Theorem announce_chunks_seeds names addr port st :
  PyStr.is_word addr = true →
  Forall (λ w, PyStr.is_word w = true) names →
  String.length ("CSQ_REGCK " +:+ addr +:+ ":" +:+ PyStr.of_nat port +:+ " "
                 +:+ PyStr.join " " names) ≤ BUFFER →
  let peer := addr +:+ ":" +:+ PyStr.of_nat port in
  (∃ st',
     announce_chunks (Some names) addr port (Some st) = (Some st', None)
     ∧ Tracker.files st' = Tracker.files st
     ∧ (∀ h s, h ∈ names → Tracker.chunks st !! h = Some s →
               Tracker.chunks st' !! h = Some (s ∪ {[peer]}))
     ∧ (∀ h, h ∉ names →
             Tracker.chunks st' !! h = Tracker.chunks st !! h))
  ∧ announce_chunks None addr port (Some st)
    = (Some st,
       Some (0, "You dont have any chunks to seed. Try uploading a file.")).
Proof.
  intros Haddr Hnames Hfit peer. split; [|done].
  rewrite announce_chunks_sends by done. fold peer.
  destruct (Tracker.regck_spec peer names (Tracker.chunks st) 0)
    as (_ & Hlook & _).
  fold (Tracker.regck (Tracker.chunks st) peer names) in Hlook.
  eexists. split_and!; [done|done|..]; cbn [Tracker.chunks].
  - intros h s Hh Hs. by rewrite Hlook, decide_True, Hs.
  - intros h Hh. by rewrite Hlook, decide_False.
Qed.

(** *** Upload, then seed *)

Lemma upload_file_regfi file_name (contents : Peer.bytes) chunks st
    (chunks_dir : gmap string Peer.bytes) :
  PyStr.is_word file_name = true →
  Peer.chunk_file CHUNK_SIZE contents = Some chunks →
  String.length ("CSQ_REGFI " +:+ file_name +:+ " "
                 +:+ PyStr.join " " (Peer.hash_chunks chunks)) ≤ BUFFER →
  ∃ dir',
    upload_file file_name contents (Some st) chunks_dir
    = (Completed,
       Some (Tracker.regfi st file_name (Peer.hash_chunks chunks)), dir').
Proof.
  intros Hname Hcf Hfit.
  set (hs := Peer.hash_chunks chunks) in *.
  pose proof (hash_chunks_words chunks) as Hwords. fold hs in Hwords.
  pose proof (is_word_length _ Hname) as Hlen.
  pose proof (length_join_ge _ Hwords) as Hjoin.
  pose proof (of_nat_length (length hs)) as Hdigits.
  pose proof Hfit as Hfit'.
  rewrite !length_append in Hfit'. unfold BUFFER in Hfit'.
  change (String.length "CSQ_REGFI ") with 10 in Hfit'.
  change (String.length " ") with 1 in Hfit'.
  change Tracker.MSG_TYPE_SIZE with 10 in Hfit'.
  unfold upload_file. rewrite Hcf. cbv zeta. cbn [default from_option id].
  fold hs.
  erewrite (send_csq_msg_fits _ _ _ "CSS_REGFI "); [|done| |done|done|].
  - cbn [fst snd].
    pose proof (Peer.save_chunks_hashes chunks chunks_dir) as Hs.
    fold hs in Hs. rewrite Hs.
    rewrite int_of_nat, Nat.eqb_refl. by eexists.
  - rewrite Tracker.handle_regfi by reflexivity.
    change (PyStr.drop 10 ("CSQ_REGFI " +:+ ?x)) with x.
    by rewrite split_named.
  - lia.
Qed.

(** X20. A peer uploads a file that is not empty and then announces
    its chunk directory, which lists at least the chunks of the file: when
    both messages fit the buffer of the tracker, the upload completes, the
    announcement goes through, and GETAF then lists the file with seed
    count 1, whatever the registry held before. *)
Theorem upload_then_announce file_name (contents : Peer.bytes) chunks st
    (chunks_dir : gmap string Peer.bytes) names addr port :
  PyStr.is_word file_name = true → PyStr.is_word addr = true →
  0 < length contents →
  Peer.chunk_file CHUNK_SIZE contents = Some chunks →
  forallb PyStr.is_word names = true →
  forallb (λ h, bool_decide (h ∈ names)) (Peer.hash_chunks chunks) = true →
  String.length ("CSQ_REGFI " +:+ file_name +:+ " "
                 +:+ PyStr.join " " (Peer.hash_chunks chunks)) ≤ BUFFER →
  String.length ("CSQ_REGCK " +:+ addr +:+ ":" +:+ PyStr.of_nat port +:+ " "
                 +:+ PyStr.join " " names) ≤ BUFFER →
  ∃ st1 dir' st2,
    upload_file file_name contents (Some st) chunks_dir
    = (Completed, Some st1, dir')
    ∧ announce_chunks (Some names) addr port (Some st1) = (Some st2, None)
    ∧ PyDict.get (Tracker.listing st2) file_name = Some 1.
Proof.
  intros Hname Haddr Hlen Hcf Hnames Hlisted Hfit1 Hfit2.
  assert (Forall (λ w, PyStr.is_word w = true) names) as Hwords.
  { apply Forall_forall. intros w Hw.
    by apply (proj1 (forallb_forall _ _) Hnames), list_elem_of_In. }
  pose proof (proj1 (forallb_forall _ _) Hlisted) as Hin.
  destruct (upload_file_regfi file_name contents chunks st chunks_dir)
    as (dir' & Hup); [done..|].
  set (hs := Peer.hash_chunks chunks) in *.
  set (st1 := Tracker.regfi st file_name hs) in *.
  set (peer := addr +:+ ":" +:+ PyStr.of_nat port).
  eexists st1, dir', _. split_and!; [done| |].
  - by apply announce_chunks_sends.
  - rewrite Tracker.get_listing. cbn [Tracker.files Tracker.chunks].
    replace (PyDict.get (Tracker.files st1) file_name) with (Some hs)
      by (symmetry; apply PyDict.get_set_eq).
    cbn [fmap option_fmap option_map]. f_equal.
    rewrite (Tracker.seed_count_all_equal _ _ {[peer]});
      [by rewrite size_singleton| |].
    + intros Hnil. unfold hs in Hnil.
      assert (chunks = []) as -> by (by destruct chunks).
      destruct (decide (0 < CHUNK_SIZE)) as [Hpos|Hzero].
      * destruct (Peer.chunk_file_chunking _ _ _ Hpos Hcf) as (_ & _ & Hcat).
        cbn in Hcat. subst contents. cbn in Hlen. lia.
      * pose proof Hfit1 as Hf. rewrite !length_append in Hf.
        unfold BUFFER in Hf.
        change (String.length "CSQ_REGFI ") with 10 in Hf.
        change Tracker.MSG_TYPE_SIZE with 10 in Hf.
        pose proof (is_word_length _ Hname). lia.
    + intros h Hh. cbn [Tracker.chunks].
      destruct (Tracker.regck_spec peer names (Tracker.chunks st1) 0)
        as (_ & Hlook & _).
      fold (Tracker.regck (Tracker.chunks st1) peer names) in Hlook.
      rewrite Hlook, decide_True.
      * unfold st1. cbn [Tracker.regfi Tracker.chunks].
        rewrite Tracker.regfi_chunks_lookup, decide_True by done.
        cbn. f_equal. set_solver.
      * pose proof (Hin h (proj1 (list_elem_of_In _ _) Hh)) as Hb.
        cbn beta in Hb. by apply bool_decide_eq_true in Hb.
Qed.

(** *** [get_files] of the peer *)

(** [l[::2]] *)
Fixpoint evens (l : list string) : list string :=
  match l with
  | [] => []
  | x :: l' => x :: match l' with [] => [] | _ :: l'' => evens l'' end
  end.

(** [l[1::2]] *)
Fixpoint odds (l : list string) : list string :=
  match l with
  | _ :: y :: l' => y :: odds l'
  | _ => []
  end.

(** [dict(pairs)] *)
Definition dict (pairs : list (string * string)) : list (string * string) :=
  foldl (λ d kv, PyDict.set d kv.1 kv.2) [] pairs.

(** What [get_files] gives: the dictionary, or the exit of [send_csq_msg]. *)
Inductive listed :=
| Files (d : list (string * string))
| Exited (status : nat) (message : string).

Definition get_files (t : tracker) : tracker * listed :=
  let r := send_csq_msg t "CSQ_GETAF" in
  (r.1, match r.2 with
        | Quit status message => Exited status message
        | Payload data =>
            let files := PyStr.split data in
            Files (dict (zip (evens files) (odds files)))
        end).

(** The two tokens the tracker writes for a file. *)
Fixpoint tokens (l : list (string * nat)) : list string :=
  match l with
  | [] => []
  | (file_name, n) :: l' =>
      file_name :: ("[" +:+ PyStr.of_nat n +:+ "]") :: tokens l'
  end.

Lemma append_ne_r (a b : string) : b ≠ "" → a +:+ b ≠ "".
Proof. destruct a; [done|]. by rewrite PyStr.append_cons. Qed.

Lemma drop_last_append (a b : string) :
  b ≠ "" → PyStr.drop_last (a +:+ b) = a +:+ PyStr.drop_last b.
Proof.
  intros Hb. induction a as [|c a IH]; [done|].
  rewrite !PyStr.append_cons. cbn [PyStr.drop_last].
  pose proof (append_ne_r a b Hb) as Hne.
  destruct (a +:+ b) eqn:E; [done|]. by rewrite IH.
Qed.

Lemma render_ne (l : list (string * nat)) : l ≠ [] → Tracker.render l ≠ "".
Proof.
  destruct l as [|[n c] l]; [done|]. intros _. cbn [Tracker.render].
  do 4 apply append_ne_r.
  by change ("] " +:+ Tracker.render l)
    with (String "]" (String " " (Tracker.render l))).
Qed.

Lemma render_tokens (l : list (string * nat)) :
  PyStr.drop_last (Tracker.render l) = PyStr.join " " (tokens l).
Proof.
  induction l as [|[n c] l IH]; [done|].
  cbn [Tracker.render tokens].
  change (PyStr.join " " (n :: ("[" +:+ PyStr.of_nat c +:+ "]") :: tokens l))
    with (n +:+ " " +:+
          PyStr.join " " (("[" +:+ PyStr.of_nat c +:+ "]") :: tokens l)).
  destruct l as [|e l].
  - cbn [Tracker.render tokens PyStr.join].
    change ("] " +:+ "") with "] ".
    by do 4 (rewrite drop_last_append
               by (repeat apply append_ne_r; done)).
  - assert (Tracker.render (e :: l) ≠ "") as Hne by by apply render_ne.
    do 5 (rewrite drop_last_append by (repeat apply append_ne_r; done)).
    rewrite IH.
    assert (tokens (e :: l) = e.1 :: ("[" +:+ PyStr.of_nat e.2 +:+ "]")
                                :: tokens l) as Htok by by destruct e.
    rewrite Htok.
    change (PyStr.join " " (("[" +:+ PyStr.of_nat c +:+ "]") :: ?x :: ?r))
      with (("[" +:+ PyStr.of_nat c +:+ "]") +:+ " " +:+
            PyStr.join " " (x :: r)).
    by rewrite !PyStr.append_assoc.
Qed.

Lemma tokens_words (l : list (string * nat)) :
  Forall (λ w, PyStr.is_word w = true) l.*1 →
  Forall (λ w, PyStr.is_word w = true) (tokens l).
Proof.
  induction l as [|[n c] l IH]; [done|].
  rewrite fmap_cons. intros [Hn Hl]%Forall_cons. cbn [tokens].
  apply Forall_cons. split; [done|].
  apply Forall_cons. split; [|by apply IH].
  apply is_word_append; [done|].
  by rewrite Sha1.no_space_append, of_nat_no_space.
Qed.

Lemma zip_tokens (l : list (string * nat)) :
  zip (evens (tokens l)) (odds (tokens l))
  = (λ e, (e.1, "[" +:+ PyStr.of_nat e.2 +:+ "]")) <$> l.
Proof.
  induction l as [|[n c] l IH]; [done|].
  cbn [tokens evens odds zip zip_with fmap list_fmap fst snd].
  f_equal. exact IH.
Qed.

Lemma dict_fresh (d l : list (string * string)) :
  NoDup (PyDict.keys d ++ l.*1) →
  foldl (λ d kv, PyDict.set d kv.1 kv.2) d l = d ++ l.
Proof.
  revert d. induction l as [|[k v] l IH]; intros d Hnd.
  - by rewrite app_nil_r.
  - cbn [foldl fst snd]. rewrite fmap_cons in Hnd. cbn [fst] in Hnd.
    assert (k ∉ PyDict.keys d) as Hk.
    { apply NoDup_app in Hnd as (_ & Hdis & _). intros Hin.
      apply (Hdis k Hin). apply elem_of_cons. by left. }
    rewrite PyDict.set_fresh by done. rewrite IH.
    + by rewrite <- app_assoc.
    + unfold PyDict.keys in *. rewrite fmap_app, <- app_assoc. exact Hnd.
Qed.

Lemma split_go_words tok s :
  match tok with Some t => PyStr.is_word t = true | None => True end →
  Forall (λ w, PyStr.is_word w = true) (PyStr.split_go tok s).
Proof.
  revert tok. induction s as [|c s IH]; intros tok Htok.
  - destruct tok; [|done]. cbn. by apply Forall_cons.
  - cbn [PyStr.split_go]. destruct (PyStr.is_space c) eqn:Hc.
    + destruct tok; [apply Forall_cons; split; [done|]|]; by apply IH.
    + apply IH. destruct tok as [t|].
      * apply is_word_append; [done|]. cbn. by rewrite Hc.
      * unfold PyStr.is_word. cbn. by rewrite Hc.
Qed.

(** The names of the files the tracker holds are words, each held once. *)
Definition names_ok (st : Tracker.registry) : Prop :=
  NoDup (PyDict.keys (Tracker.files st))
  ∧ Forall (λ w, PyStr.is_word w = true) (PyDict.keys (Tracker.files st)).

Lemma names_ok_step st data st' reply :
  names_ok st → Tracker.handle_request st data = Some (st', reply) →
  names_ok st'.
Proof.
  intros [Hnd Hw] Hstep.
  destruct (Tracker.handle_request_cases _ _ _ _ Hstep)
    as [(Hf & _ & _)|(fn & fc & _ & Hsplit & ->)].
  - unfold names_ok. by rewrite Hf.
  - unfold names_ok. cbn [Tracker.regfi Tracker.files]. split.
    + by apply PyDict.NoDup_keys_set.
    + rewrite PyDict.keys_set. case_decide; [done|].
      apply Forall_app. split; [done|]. apply Forall_singleton.
      pose proof (split_go_words None (PyStr.drop 10 data) I) as Hall.
      fold (PyStr.split (PyStr.drop 10 data)) in Hall.
      rewrite Hsplit in Hall. by apply Forall_cons in Hall as [? _].
Qed.

Lemma names_ok_serve st msgs :
  names_ok st → names_ok (Tracker.serve st msgs).1.
Proof.
  revert st. induction msgs as [|data msgs IH]; intros st Hok; [done|].
  cbn [Tracker.serve].
  destruct (Tracker.handle_request st data) as [[st' reply]|] eqn:Hstep;
    [|done].
  cbn [fst]. apply IH. by eapply names_ok_step.
Qed.

Lemma listing_keys st :
  (Tracker.listing st).*1 = PyDict.keys (Tracker.files st).
Proof.
  unfold Tracker.listing, PyDict.keys.
  rewrite <- list_fmap_compose. by apply list_fmap_ext.
Qed.

(** X21. The listing a peer reads back.  For every registry the
    service loop reaches from the empty maps, when the GETAF reply fits
    the buffer of the peer, the dictionary [get_files] builds holds
    exactly the files of the tracker, in their order, each with its seed
    count between brackets; the registry is unchanged. *)
Theorem get_files_roundtrip (msgs : list string) :
  let st := (Tracker.serve Tracker.empty msgs).1 in
  String.length (Tracker.get_files st) ≤ CHUNK_SIZE →
  get_files (Some st)
  = (Some st,
     Files ((λ e, (e.1, "[" +:+ PyStr.of_nat e.2 +:+ "]"))
              <$> Tracker.listing st)).
Proof.
  intros st Hfit.
  assert (names_ok st) as [Hnd Hw].
  { apply names_ok_serve. split; [apply NoDup_nil_2|apply Forall_nil_2]. }
  rewrite <- listing_keys in Hnd, Hw.
  unfold get_files.
  rewrite (send_csq_msg_fits st "CSQ_GETAF" st "CSS_GETAF "
             (Tracker.get_files st)); [|cbn; lia|done|done|done|done].
  cbn [fst snd]. cbv zeta.
  rewrite Tracker.get_files_render, render_tokens,
    PyStr.split_join by by apply tokens_words.
  rewrite zip_tokens. unfold dict. rewrite dict_fresh; [done|].
  cbn [PyDict.keys fmap list_fmap app].
  by rewrite <- list_fmap_compose.
Qed.

End Requests.

Lemma upload_then_getfi_witness :
  let chunks := [Peer.bytes_of "abcdef"] in
  ∃ st' dir',
    upload_file 128 "notes" (Peer.bytes_of "abcdef") (Some Tracker.empty) ∅
    = (Completed, Some st', dir')
    ∧ PyDict.get (Tracker.files st') "notes" = Some (Peer.hash_chunks chunks)
    ∧ (∀ c, c ∈ chunks →
         Tracker.chunks st' !! Sha1.hexdigest c = Some ∅
         ∧ ∃ c', dir' !! Sha1.hexdigest c = Some c'
                 ∧ Sha1.hexdigest c' = Sha1.hexdigest c)
    ∧ ∃ reply,
        send_csq_msg 128 (Some st') ("CSQ_GETFI " +:+ "notes")
        = (Some st', Payload reply)
        ∧ PyStr.split reply = Peer.hash_chunks chunks.
Proof.
  apply (upload_then_getfi 128 "notes" (Peer.bytes_of "abcdef")
           [Peer.bytes_of "abcdef"] Tracker.empty ∅).
  - reflexivity.
  - reflexivity.
  - vm_compute. lia.
Defined.

Lemma upload_name_with_space_witness :
  let chunks := [Peer.bytes_of "abcdef"] in
  ∃ st' dir',
    upload_file 128 ("my" +:+ " " +:+ "notes") (Peer.bytes_of "abcdef")
      (Some Tracker.empty) ∅
    = (Stopped 1 "Failed uploading file. Upload incomplete.", Some st', dir')
    ∧ PyDict.get (Tracker.files st') "my"
      = Some ("notes" :: Peer.hash_chunks chunks)
    ∧ Peer.save_chunks chunks (Peer.hash_chunks chunks) ∅ = Some dir'.
Proof.
  apply (upload_name_with_space 128 "my" "notes" (Peer.bytes_of "abcdef")
           [Peer.bytes_of "abcdef"] Tracker.empty ∅).
  - reflexivity.
  - reflexivity.
  - reflexivity.
  - vm_compute. lia.
Defined.

Lemma stale_peers_stay_registered_witness :
  let st := (Tracker.serve Tracker.empty
               ["CSQ_REGFI a h1"; "CSQ_REGCK 10.0.0.1:4000 h1"]).1 in
  ∃ st' s',
    deannounce_stale 128 (Some st) "10.0.0.1:4000" = (Some st', Payload "")
    ∧ Tracker.chunks st' !! "h1" = Some s' ∧ "10.0.0.1:4000" ∈ s'.
Proof.
  apply (stale_peers_stay_registered 128
           (Tracker.serve Tracker.empty
              ["CSQ_REGFI a h1"; "CSQ_REGCK 10.0.0.1:4000 h1"]).1
           "10.0.0.1:4000" "h1" {["10.0.0.1:4000"]} "10.0.0.1:4000").
  - vm_compute. reflexivity.
  - by apply elem_of_singleton.
  - vm_compute. lia.
Defined.

Lemma announce_chunks_seeds_witness :
  let st := (Tracker.serve Tracker.empty ["CSQ_REGFI a h1 h2"]).1 in
  let peer := "10.0.0.1" +:+ ":" +:+ PyStr.of_nat 4000 in
  (∃ st',
     announce_chunks 128 (Some ["h2"; "zz"]) "10.0.0.1" 4000 (Some st)
     = (Some st', None)
     ∧ Tracker.files st' = Tracker.files st
     ∧ (∀ h s, h ∈ ["h2"; "zz"] → Tracker.chunks st !! h = Some s →
               Tracker.chunks st' !! h = Some (s ∪ {[peer]}))
     ∧ (∀ h, h ∉ ["h2"; "zz"] →
             Tracker.chunks st' !! h = Tracker.chunks st !! h))
  ∧ announce_chunks 128 None "10.0.0.1" 4000 (Some st)
    = (Some st,
       Some (0, "You dont have any chunks to seed. Try uploading a file.")).
Proof.
  apply (announce_chunks_seeds 128 ["h2"; "zz"] "10.0.0.1" 4000
           (Tracker.serve Tracker.empty ["CSQ_REGFI a h1 h2"]).1).
  - reflexivity.
  - repeat constructor.
  - vm_compute. lia.
Defined.

Lemma upload_then_announce_witness :
  ∃ st1 dir' st2,
    upload_file 128 "notes" (Peer.bytes_of "abcdef") (Some Tracker.empty) ∅
    = (Completed, Some st1, dir')
    ∧ announce_chunks 128
        (Some ["1f8ac10f23c5b5bc1167bda84b833e5c057a77d2"]) "10.0.0.1" 4000
        (Some st1)
      = (Some st2, None)
    ∧ PyDict.get (Tracker.listing st2) "notes" = Some 1.
Proof.
  apply (upload_then_announce 128 "notes" (Peer.bytes_of "abcdef")
           [Peer.bytes_of "abcdef"] Tracker.empty ∅
           ["1f8ac10f23c5b5bc1167bda84b833e5c057a77d2"] "10.0.0.1" 4000).
  - reflexivity.
  - reflexivity.
  - simpl. lia.
  - reflexivity.
  - reflexivity.
  - vm_compute. reflexivity.
  - vm_compute. lia.
  - vm_compute. lia.
Defined.

Lemma get_files_roundtrip_witness :
  let st := (Tracker.serve Tracker.empty
               ["CSQ_REGFI a.txt h1 h2"; "CSQ_REGCK 10.0.0.1:4000 h1 h2";
                "CSQ_REGFI b.txt h3"]).1 in
  get_files 128 (Some st)
  = (Some st,
     Files ((λ e, (e.1, "[" +:+ PyStr.of_nat e.2 +:+ "]"))
              <$> Tracker.listing st)).
Proof.
  apply (get_files_roundtrip 128
           ["CSQ_REGFI a.txt h1 h2"; "CSQ_REGCK 10.0.0.1:4000 h1 h2";
            "CSQ_REGFI b.txt h3"]).
  vm_compute. lia.
Defined.

End Network.
